(** * Bulletin dashboard (app.py): gateway, week matcher, recurring events

    A shallow embedding of the analytic core of [app.py]:
    - [init_gemini]: selection of the first usable credential,
    - [call_gemini_with_retry]: credential rotation and retry,
    - [get_this_week_history]: entries of earlier years in the same week,
    - [find_recurring_events]: titles that recur in a month,
    - [suggest_next_month_ads]: the payload handed to the gateway.

    Python strings are modelled as their UTF-8 byte strings.  Byte-wise
    lexicographic order on UTF-8 agrees with Python's code-point order. *)

From Stdlib Require Import ZArith Ascii.
From stdpp Require Import gmap strings list sorting.

Local Open Scope Z_scope.
Local Set Warnings "-clear-no-such-hyp".

(** ** Python outcomes *)

(** A Python call either returns a value or leaves with an exception. *)
Inductive exn : Type :=
  | IndexError
  | TypeError
  | KeyError.

Inductive py (A : Type) : Type :=
  | Returns (a : A)
  | Raises (e : exn).
Arguments Returns {A} a.
Arguments Raises {A} e.

Global Instance py_ret : MRet py := λ A a, Returns a.
Global Instance py_bind : MBind py := λ A B k m,
  match m with
  | Returns a => k a
  | Raises e => Raises e
  end.

(** [l[i]] for a Python list: negative indices count from the end, an index
    out of range raises [IndexError]. *)
Definition py_getitem {A} (l : list A) (i : Z) : py A :=
  let n := Z.of_nat (length l) in
  let j := if i <? 0 then i + n else i in
  if (0 <=? j) && (j <? n)
  then match l !! Z.to_nat j with
       | Some a => Returns a
       | None => Raises IndexError
       end
  else Raises IndexError.

(** ** Strings: [str.lower] and [needle in haystack] *)

(** [str.lower] on the ASCII range; bytes of longer UTF-8 sequences are kept.
    No code point outside ASCII lowers to a run of letters that completes
    "quota" or "limit", so the classification below agrees with Python's. *)
Definition lower_ascii (c : ascii) : ascii :=
  let n := N_of_ascii c in
  if ((65 <=? n) && (n <=? 90))%N then ascii_of_N (n + 32) else c.

Fixpoint lower (s : string) : string :=
  match s with
  | EmptyString => EmptyString
  | String c s' => String (lower_ascii c) (lower s')
  end.

(** [needle in hay] *)
Fixpoint contains (needle hay : string) : bool :=
  String.prefix needle hay ||
  match hay with
  | EmptyString => false
  | String _ hay' => contains needle hay'
  end.

(** ** AI gateway: [call_gemini_with_retry] *)

(** [st.session_state]: a key that was never stored reads as [None], and
    [.get(key, default)] then yields the default. *)
Record session_state : Type := {
  api_keys : option (list string);
  model_name : option string;
  current_api_key_index : option Z
}.

Definition set_current_api_key_index (i : Z) (st : session_state)
  : session_state :=
  {| api_keys := api_keys st;
     model_name := model_name st;
     current_api_key_index := Some i |}.

(** What one pass through the [try] block of lines 121-136 meets.
    [genai.configure], [GenerativeModel] or [generate_content] raises with
    message [str(e)]; or the request returns and [response.text] is read;
    or the request returns and reading [response.text] raises, which
    happens on line 136, after the cursor was stored on line 130 and the
    information notice shown on line 134. *)
Inductive response : Type :=
  | Generated (text : string)
  | Failed (error_msg : string)
  | Unreadable (error_msg : string).

(** Whether the request came back with a response. *)
Definition returned (answer : response) : bool :=
  match answer with
  | Generated _ | Unreadable _ => true
  | Failed _ => false
  end.

(** The message the [except] handler sees, if the attempt ends there. *)
Definition error_msg_of (answer : response) : option string :=
  match answer with
  | Generated _ => None
  | Failed error_msg | Unreadable error_msg => Some error_msg
  end.

(** One generation request as the loop issued it. *)
Record call : Type := {
  call_index : Z;
  call_key : string;
  call_response : response
}.

(** [st.info] / [st.warning] with the 1-based key position they print, and
    [st.error] with its message. *)
Inductive notice : Type :=
  | st_info (position : Z)
  | st_warning (position : Z)
  | st_error (msg : string).

(** The four [return] statements of the function. *)
Inductive exit_point : Type :=
  | return_text        (* line 136, inside the loop *)
  | return_exhausted   (* line 147, inside the loop *)
  | return_error       (* line 150, inside the loop *)
  | return_fallback.   (* line 152, after the loop *)

Record run : Type := {
  outcome : py (exit_point * string);
  state : session_state;
  calls : list call;
  notices : list notice
}.

Definition msg_exhausted : string :=
  "❌ 모든 API 키의 할당량이 초과되었습니다. 내일 다시 시도해주세요.".
Definition msg_error (error_msg : string) : string :=
  "❌ 오류: " +:+ error_msg.
Definition msg_fallback : string := "❌ API 호출 실패".
Definition default_model : string := "gemini-3-flash-preview".

(** ["quota" in error_msg.lower() or "limit" in error_msg.lower()] *)
Definition quota_or_limit (error_msg : string) : bool :=
  contains "quota" (lower error_msg) || contains "limit" (lower error_msg).

Definition logged (c : call) (w : list notice) (r : run) : run :=
  {| outcome := outcome r;
     state := state r;
     calls := c :: calls r;
     notices := w ++ notices r |}.

(** A run that an exception leaves before any request is sent. *)
Definition raised (e : exn) (st : session_state) : run :=
  {| outcome := Raises e; state := st; calls := []; notices := [] |}.

(** The [except] handler of lines 138-150 for the request [c] of attempt
    [attempt], with the session state [st] and the notices [shown] as the
    [try] block left them; [continue] is the rest of the loop. *)
Definition on_exception (len attempt : Z) (c : call) (st : session_state)
    (shown : list notice) (error_msg : string) (continue : run) : run :=
  if quota_or_limit error_msg then
    if attempt <? len - 1 then
      logged c (shown ++ [st_warning (call_index c + 1)]) continue
    else
      {| outcome := Returns (return_exhausted, msg_exhausted);
         state := st; calls := [c]; notices := shown |}
  else
    {| outcome := Returns (return_error, msg_error error_msg);
       state := st; calls := [c]; notices := shown |}.

Section Retry.

Context {Prompt Config : Type}.

(** The generative-text service.  Its answer may depend on the request
    and on how many requests this invocation sent before it. *)
Variable generate_content : Z → string → string → Prompt → Config → response.

Variable prompt : Prompt.
Variable generation_config : Config.

(** The body of [for attempt in range(len(api_keys))], one iteration per
    list element; the empty list is the loop running off its end.  The
    arguments [keys], [model] and [start_index] are the locals bound on
    lines 112-114; [st] is the session state, which line 130 updates. *)
Fixpoint attempts_loop (st : session_state) (keys : list string)
    (model : string) (start_index : Z) (attempts : list Z) : run :=
  match attempts with
  | [] =>
      {| outcome := Returns (return_fallback, msg_fallback);
         state := st; calls := []; notices := [] |}
  | attempt :: rest =>
      let len := Z.of_nat (length keys) in
      let current_index := (start_index + attempt) `mod` len in
      match py_getitem keys current_index with
      | Raises e => raised e st
      | Returns current_key =>
          let answer :=
            generate_content attempt current_key model prompt
              generation_config in
          let c := {| call_index := current_index;
                      call_key := current_key;
                      call_response := answer |} in
          let stored := set_current_api_key_index current_index st in
          let info := if 0 <? attempt
                      then [st_info (current_index + 1)] else [] in
          match answer with
          | Generated text =>
              {| outcome := Returns (return_text, text);
                 state := stored; calls := [c]; notices := info |}
          | Failed error_msg =>
              on_exception len attempt c st [] error_msg
                (attempts_loop st keys model start_index rest)
          | Unreadable error_msg =>
              on_exception len attempt c stored info error_msg
                (attempts_loop stored keys model start_index rest)
          end
      end
  end.

Definition call_gemini_with_retry (st : session_state) : run :=
  let keys := default [] (api_keys st) in
  let model := default default_model (model_name st) in
  let start_index := default 0 (current_api_key_index st) in
  attempts_loop st keys model start_index
    (seqZ 0 (Z.of_nat (length keys))).

End Retry.

(** ** Gateway initialisation: [init_gemini] *)

(** The entries of [st.secrets] that the gateway reads. *)
Record secrets : Type := {
  gemini_api_keys : option (list string);
  gemini_api_key : option string;
  gemini_model : option string
}.

(** [st.secrets] as line 71 finds it: the entries, or the exception its
    first access raises when the application has no secrets file, with
    the text [str(e)] of that exception. *)
Inductive secrets_source : Type :=
  | secrets_loaded (sec : secrets)
  | secrets_unreadable (error_msg : string).

Definition msg_no_api_key : string := "API 키가 설정되지 않았습니다.".
Definition msg_all_keys_failed : string :=
  "모든 API 키가 할당량을 초과했습니다. 나중에 다시 시도해주세요.".
Definition msg_init_error (error_msg : string) : string :=
  "Gemini API 초기화 오류: " +:+ error_msg.

Record init_run : Type := {
  init_model : option (string * string);
  init_state : session_state;
  init_notices : list notice;
  init_constructed : list string
}.

Section Init.

(** Whether [genai.configure] and [GenerativeModel] go through for a key
    and a model name. *)
Variable construct : string → string → bool.

(** The body of [for i, api_key in enumerate(api_keys)]. *)
Fixpoint keys_loop (st : session_state) (keys : list string)
    (model : string) (i : Z) (rest : list string) : init_run :=
  match rest with
  | [] =>
      {| init_model := None; init_state := st;
         init_notices := [st_error msg_all_keys_failed];
         init_constructed := [] |}
  | api_key :: rest' =>
      if construct api_key model then
        {| init_model := Some (api_key, model);
           init_state := {| api_keys := Some keys;
                            model_name := Some model;
                            current_api_key_index := Some i |};
           init_notices := [];
           init_constructed := [api_key] |}
      else
        let r := keys_loop st keys model (i + 1) rest' in
        {| init_model := init_model r;
           init_state := init_state r;
           init_notices := init_notices r;
           init_constructed := api_key :: init_constructed r |}
  end.

(** The function, lines 67-107: the body of the outer [try] on the
    entries of the secrets, and the handler of lines 105-107 when reading
    the secrets raised. *)
Definition init_gemini (source : secrets_source) (st : session_state)
  : init_run :=
  match source with
  | secrets_unreadable error_msg =>
      {| init_model := None; init_state := st;
         init_notices := [st_error (msg_init_error error_msg)];
         init_constructed := [] |}
  | secrets_loaded sec =>
      let keys := default [] (gemini_api_keys sec) in
      let keys := match keys, gemini_api_key sec with
                  | [], Some k => [k]
                  | _, _ => keys
                  end in
      match keys with
      | [] =>
          {| init_model := None; init_state := st;
             init_notices := [st_error msg_no_api_key];
             init_constructed := [] |}
      | _ :: _ =>
          keys_loop st keys (default default_model (gemini_model sec)) 0 keys
      end
  end.

End Init.

(** ** The record table *)

(** A [pandas.Timestamp] of the date column, by its calendar fields. *)
Record date : Type := {
  year : Z;
  month : Z;
  day : Z
}.

(** One row of the table.  The columns are 날짜, 카테고리, 제목 and 내용.
    [pd.to_datetime(..., errors='coerce')] turns a cell it cannot parse
    into [NaT], here [None].  [get_all_records] renders a blank cell as the
    empty string, so the three text columns hold no missing value. *)
Record row : Type := {
  r_date : option date;
  r_category : string;
  r_title : string;
  r_body : string
}.

Global Instance date_eq_dec : EqDecision date.
Proof. solve_decision. Defined.
Global Instance row_eq_dec : EqDecision row.
Proof. solve_decision. Defined.

(** *** ISO-8601 week number, as [isocalendar] computes it *)

Definition is_leap (y : Z) : bool :=
  (y `mod` 4 =? 0) && (negb (y `mod` 100 =? 0) || (y `mod` 400 =? 0)).

Definition days_before_year (y : Z) : Z :=
  let y := y - 1 in y * 365 + y `div` 4 - y `div` 100 + y `div` 400.

Definition days_before_month (y m : Z) : Z :=
  nth (Z.to_nat (m - 1))
    [0; 31; 59; 90; 120; 151; 181; 212; 243; 273; 304; 334] 0
  + (if (2 <? m) && is_leap y then 1 else 0).

Definition ymd2ord (y m d : Z) : Z :=
  days_before_year y + days_before_month y m + d.

(** Ordinal of the Monday that starts ISO week 1 of year [y]. *)
Definition isoweek1monday (y : Z) : Z :=
  let firstday := ymd2ord y 1 1 in
  let firstweekday := (firstday + 6) `mod` 7 in
  let week1monday := firstday - firstweekday in
  if 3 <? firstweekday then week1monday + 7 else week1monday.

Definition isoweek (d : date) : Z :=
  let today := ymd2ord (year d) (month d) (day d) in
  let week := (today - isoweek1monday (year d)) `div` 7 in
  if week <? 0 then (today - isoweek1monday (year d - 1)) `div` 7 + 1
  else if (52 <=? week) && (isoweek1monday (year d + 1) <=? today) then 1
  else week + 1.

(** ** Historical week matcher: [get_this_week_history] *)

(** [Series.between(lo, hi)], both ends included. *)
Definition between (x lo hi : Z) : bool := (lo <=? x) && (x <=? hi).

(** The boolean mask of lines 166-175 at one row.  Every comparison with a
    missing date is false. *)
Definition week_mask (current_date : date) (y : Z) (r : row) : bool :=
  match r_date r with
  | None => false
  | Some d =>
      (year d =? y) &&
      ((isoweek d =? isoweek current_date) ||
       ((month d =? month current_date) &&
        between (day d) (day current_date - 7) (day current_date + 7)))
  end.

(** [df['날짜'].dt.year.min()] as [range] receives it.  The table without
    rows is the frame the loader builds from no records,
    [pd.DataFrame([])]: it has no 날짜 column and the lookup raises
    [KeyError].  Otherwise the year column is an integer column only when
    no date is missing; with a missing date it is a float column, which
    [range] rejects with [TypeError]. *)
Definition dt_year_min (df : list row) : py Z :=
  match df with
  | [] => Raises KeyError
  | _ :: _ =>
      match mapM (λ r, year <$> r_date r) df with
      | Some (y :: ys) => Returns (foldr Z.min y ys)
      | _ => Raises TypeError
      end
  end.

(** The body of [for year in range(...)], with the dictionary [history]
    threaded through. *)
Fixpoint years_loop (df : list row) (current_date : date)
    (years : list Z) (history : gmap Z (list row)) : gmap Z (list row) :=
  match years with
  | [] => history
  | y :: rest =>
      let year_data := filter (λ r, week_mask current_date y r) df in
      years_loop df current_date rest
        (match year_data with
         | [] => history
         | _ :: _ => <[y := year_data]> history
         end)
  end.

Definition get_this_week_history (df : list row) (current_date : date)
  : py (gmap Z (list row)) :=
  first_year ← dt_year_min df;
  mret (years_loop df current_date
          (seqZ first_year (year current_date - first_year)) ∅).

(** ** Recurring event detector: [find_recurring_events] *)

(** One row of the aggregated frame: the index (제목) and the columns
    횟수, 카테고리 and 내용. *)
Record event : Type := {
  e_title : string;
  e_count : Z;
  e_category : string;
  e_body : string
}.

Global Instance event_eq_dec : EqDecision event.
Proof. solve_decision. Defined.

(** [df['날짜'].dt.month == month] at one row. *)
Definition month_mask (m : Z) (r : row) : bool :=
  match r_date r with
  | None => false
  | Some d => month d =? m
  end.

(** [groupby('제목')]: one group per distinct title, the group keys in
    ascending order, the rows of a group in table order. *)
Definition groupby_title (rows : list row) : list (string * list row) :=
  (λ k, (k, filter (λ r, r_title r = k) rows))
    <$> merge_sort String.le (remove_dups (r_title <$> rows)).

(** [.agg({'날짜': 'count', '카테고리': 'first', '내용': 'first'})] on one
    group: ['count'] counts the dates that are not missing. *)
Definition agg (g : string * list row) : event :=
  {| e_title := g.1;
     e_count := Z.of_nat (length (filter (λ r, is_Some (r_date r)) g.2));
     e_category := from_option r_category "" (head g.2);
     e_body := from_option r_body "" (head g.2) |}.

(** The order [sort_values('횟수', ascending=False)] has to produce. *)
Definition by_count_desc (a b : event) : Prop := e_count b ≤ e_count a.

Global Instance by_count_desc_dec : RelDecision by_count_desc.
Proof. intros a b. unfold by_count_desc. apply _. Defined.

(** What [sort_values] promises with its default [kind='quicksort']: the
    same rows, in descending order of the column.  Where rows tie, the
    order is left to the sorting routine. *)
Class SortValues (sort_values : list event → list event) : Prop := {
  sort_values_perm : ∀ l, sort_values l ≡ₚ l;
  sort_values_sorted : ∀ l, Sorted by_count_desc (sort_values l)
}.

(** One routine that keeps the promise, for running the model. *)
Definition merge_sort_values : list event → list event :=
  merge_sort by_count_desc.

Section Recurring.

Variable sort_values : list event → list event.

Definition find_recurring_events (df : list row) (month : Z) : list event :=
  let month_data := filter (λ r, month_mask month r) df in
  match month_data with
  | [] => []
  | _ :: _ =>
      let event_counts := agg <$> groupby_title month_data in
      sort_values (filter (λ e, 3 ≤ e_count e) event_counts)
  end.

End Recurring.

(** ** Suggestion composer: [suggest_next_month_ads] *)

(** The Python values that [to_dict] hands to [json.dumps]. *)
#[warnings="-register-all"]
Inductive pyobj : Type :=
  | PyStr (s : string)
  | PyInt (z : Z)
  | PyTimestamp (d : option date)
  | PyList (items : list pyobj)
  | PyDict (items : list (string * pyobj)).

(** The encoder of [json.dumps] knows dict, list, str and int; it is
    called without [default=], so any other object raises [TypeError]. *)
Fixpoint json_serializable (o : pyobj) : bool :=
  match o with
  | PyStr _ | PyInt _ => true
  | PyTimestamp _ => false
  | PyList items => forallb json_serializable items
  | PyDict items =>
      forallb (λ kv, match kv with (_, v) => json_serializable v end) items
  end.

(** The rendered text is kept as the value it renders. *)
Definition json_dumps (o : pyobj) : py pyobj :=
  if json_serializable o then Returns o else Raises TypeError.

(** [.to_dict('records')] of the four selected columns. *)
Definition to_dict_records (rows : list row) : pyobj :=
  PyList ((λ r, PyDict [("날짜", PyTimestamp (r_date r));
                        ("카테고리", PyStr (r_category r));
                        ("제목", PyStr (r_title r));
                        ("내용", PyStr (r_body r))]) <$> rows).

(** [.to_dict('index')] of the aggregated frame. *)
Definition to_dict_index (events : list event) : pyobj :=
  PyDict ((λ e, (e_title e,
                 PyDict [("횟수", PyInt (e_count e));
                         ("카테고리", PyStr (e_category e));
                         ("내용", PyStr (e_body e))])) <$> events).

(** The filled template: the month and the two embedded JSON documents. *)
Record prompt : Type := {
  p_target_month : Z;
  p_past_events : pyobj;
  p_recurring_events : pyobj
}.

(** [genai.GenerationConfig], the temperature in tenths. *)
Record generation_config : Type := {
  temperature_tenths : Z;
  max_output_tokens : Z
}.

Section Composer.

Variable generate_content :
  Z → string → string → prompt → generation_config → response.
Variable sort_values : list event → list event.

Definition suggest_next_month_ads (df : list row) (target_month : Z)
    (st : session_state) : run :=
  let month_data := filter (λ r, month_mask target_month r) df in
  let recurring := find_recurring_events sort_values df target_month in
  let past_events := to_dict_records (take 50 month_data) in
  let recurring_events := to_dict_index (take 20 recurring) in
  match (past ← json_dumps past_events;
         rec ← json_dumps recurring_events;
         mret {| p_target_month := target_month;
                 p_past_events := past;
                 p_recurring_events := rec |}) with
  | Raises e => raised e st
  | Returns p =>
      call_gemini_with_retry generate_content p
        {| temperature_tenths := 3; max_output_tokens := 2000 |} st
  end.

End Composer.


(** ** Vocabulary of the statements *)

(** [issued_at ... j c]: [c] is the request that attempt [j] of the loop
    sends: to the key at position [(start_index + j) mod n], answered by
    the service for that key. *)
Definition issued_at {Prompt Config : Type}
    (generate_content : Z → string → string → Prompt → Config → response)
    (prompt : Prompt) (generation_config : Config)
    (keys : list string) (model : string) (start_index : Z)
    (j : Z) (c : call) : Prop :=
  call_index c = (start_index + j) `mod` Z.of_nat (length keys) ∧
  keys !! Z.to_nat (call_index c) = Some (call_key c) ∧
  call_response c =
    generate_content j (call_key c) model prompt generation_config.

(** The session state a run leaves behind, read off its requests: every
    request that came back with a response stored its position. *)
Definition cursor_after (st : session_state) (cs : list call)
  : session_state :=
  foldl (λ s c, if returned (call_response c)
                then set_current_api_key_index (call_index c) s else s)
    st cs.

(** A run reports a configuration error when it leaves with an exception
    or carries the message [init_gemini] shows for a missing key, as its
    value or as an [st.error] notice. *)
Definition reports_configuration_error (r : run) : Prop :=
  (∃ e, outcome r = Raises e) ∨
  (∃ x, outcome r = Returns (x, msg_no_api_key)) ∨
  st_error msg_no_api_key ∈ notices r.

(** Sample inputs. *)
Definition no_prompt : unit := tt.
Definition session (keys : list string) (start_index : Z) : session_state :=
  {| api_keys := Some keys; model_name := None;
     current_api_key_index := Some start_index |}.

(** A service on which key "A" is over quota and every other key works. *)
Definition only_A_over_quota
    (attempt : Z) (key model : string) (p c : unit) : response :=
  if decide (key = "A") then Failed "429 Quota exceeded"
  else Generated ("ok " +:+ key).

(** A service on which every key is over its rate limit. *)
Definition all_over_quota
    (attempt : Z) (key model : string) (p c : unit) : response :=
  Failed "Resource exhausted: rate LIMIT reached".

(** A service on which only key "B" is within its quota. *)
Definition only_B_works
    (attempt : Z) (key model : string) (p c : unit) : response :=
  if decide (key = "B") then Generated "ok"
  else Failed "429 You exceeded your current quota".


Definition entry (y m d : Z) (category title body : string) : row :=
  {| r_date := Some {| year := y; month := m; day := d |};
     r_category := category; r_title := title; r_body := body |}.

Definition today : date := {| year := 2026; month := 11; day := 4 |}.

Definition sample_table : list row :=
  [ entry 2024 11 6 "예배" "추수감사주일" "감사헌금";
    entry 2025 3 2 "행사" "봄맞이 대청소" "";
    entry 2025 11 10 "모임" "구역장 모임" "";
    entry 2026 11 1 "예배" "추수감사주일" "" ].

Definition sample_history : gmap Z (list row) :=
  <[2025 := [entry 2025 11 10 "모임" "구역장 모임" ""]]>
    (<[2024 := [entry 2024 11 6 "예배" "추수감사주일" "감사헌금"]]> ∅).

Definition this_year_only : list row :=
  [ entry 2026 1 4 "예배" "신년예배" "";
    entry 2026 11 1 "예배" "추수감사주일" "" ].

(** Number of entries of month [m] with title [t], over all years. *)
Definition occurrences (df : list row) (m : Z) (t : string) : Z :=
  Z.of_nat (length (filter (λ r, r_title r = t ∧ month_mask m r) df)).

(** [r] is the first entry of month [m] with title [t] in table order. *)
Definition first_entry (df : list row) (m : Z) (t : string) (r : row)
  : Prop :=
  ∃ before after,
    df = before ++ r :: after ∧
    (r_title r = t ∧ month_mask m r) ∧
    Forall (λ r', ¬ (r_title r' = t ∧ month_mask m r')) before.

(** Position in the table of the first entry of month [m] with title [t]. *)
Definition first_occurrence (df : list row) (m : Z) (t : string)
  : option nat :=
  fst <$> list_find (λ r, r_title r = t ∧ month_mask m r) df.

(** Groups tied on count stand in the order of their first occurrence. *)
Definition ties_in_first_occurrence_order (df : list row) (m : Z)
    (result : list event) : Prop :=
  ∀ (i j : nat) (e1 e2 : event) (p1 p2 : nat),
    result !! i = Some e1 → result !! j = Some e2 →
    e_count e1 = e_count e2 →
    first_occurrence df m (e_title e1) = Some p1 →
    first_occurrence df m (e_title e2) = Some p2 →
    (p1 < p2)%nat → (i < j)%nat.

(** March entries: 봄맞이 대청소 in four years, 부활절 in three, one more
    title once, and an entry of another month. *)
Definition march_table : list row :=
  [ entry 2021 3 7 "행사" "봄맞이 대청소" "교회 안팎 청소";
    entry 2021 3 28 "예배" "부활절 준비" "";
    entry 2022 3 6 "행사" "봄맞이 대청소" "";
    entry 2022 3 20 "모임" "제직회" "";
    entry 2022 3 27 "예배" "부활절 준비" "칸타타";
    entry 2023 3 5 "봉사" "봄맞이 대청소" "";
    entry 2023 3 26 "예배" "부활절 준비" "";
    entry 2023 4 2 "예배" "종려주일" "";
    entry 2024 3 3 "행사" "봄맞이 대청소" "" ].

(** Two tables with the same March entries, "a" three times and "b" three
    times, that differ in which title comes first. *)
Definition table_a_first : list row :=
  [ entry 2021 3 7 "c" "a" ""; entry 2022 3 6 "c" "a" "";
    entry 2023 3 5 "c" "a" "";
    entry 2021 3 14 "c" "b" ""; entry 2022 3 13 "c" "b" "";
    entry 2023 3 12 "c" "b" "" ].

Definition table_b_first : list row :=
  [ entry 2021 3 14 "c" "b" ""; entry 2022 3 13 "c" "b" "";
    entry 2023 3 12 "c" "b" "";
    entry 2021 3 7 "c" "a" ""; entry 2022 3 6 "c" "a" "";
    entry 2023 3 5 "c" "a" "" ].

(** ** The page: [main] *)

(** Line 318: the month the selector of the suggestion tab opens on. *)
Definition next_month (current_month : Z) : Z := current_month `mod` 12 + 1.

(** The options of the selector, [range(1, 13)]; it opens on the option
    at position [index = next_month - 1]. *)
Definition month_options : list Z := seqZ 1 12.

(** *** Tab 1: the years of the history, lines 295-308 *)

(** One [st.expander] of the tab. *)
Record expander : Type := {
  x_year : Z;
  x_expanded : bool;
  x_rows : list row
}.

Inductive history_view : Type :=
  | no_history                               (* the warning of line 296 *)
  | year_expanders (xs : list expander).

(** [max(history.keys())] *)
Definition py_max (keys : list Z) : option Z :=
  match keys with
  | [] => None
  | y :: ys => Some (foldr Z.max y ys)
  end.

(** [sorted(history.keys(), reverse=True)]: descending. *)
Definition descending (a b : Z) : Prop := b ≤ a.

Global Instance descending_dec : RelDecision descending.
Proof. intros a b. unfold descending. apply _. Defined.

Definition sorted_reverse (keys : list Z) : list Z :=
  merge_sort descending keys.

(** [history[year]] reads a key of the dictionary, so the key is there. *)
Definition history_tab (history : gmap Z (list row)) : history_view :=
  let keys := (map_to_list history).*1 in
  match keys with
  | [] => no_history
  | _ :: _ =>
      year_expanders
        ((λ y, {| x_year := y;
                  x_expanded := bool_decide (Some y = py_max keys);
                  x_rows := history !!! y |}) <$> sorted_reverse keys)
  end.

(** *** Tab 2: the click on the suggestion button, lines 326-333 *)

(** What a click leaves behind: the initialisation and the suggestion run
    that follows it.  The value [init_gemini] returns is not looked at. *)
Record click : Type := {
  click_init : init_run;
  click_run : run
}.

Definition suggestion_click
    (construct : string → string → bool)
    (generate_content :
       Z → string → string → prompt → generation_config → response)
    (sort_values : list event → list event)
    (source : secrets_source) (df : list row) (selected_month : Z)
    (st : session_state) : click :=
  let i := init_gemini construct source st in
  {| click_init := i;
     click_run :=
       suggest_next_month_ads generate_content sort_values df selected_month
         (init_state i) |}.

(** ** Vocabulary of the further statements *)

(** The information notice of line 134: shown when the request of a later
    attempt than the first came back with a response. *)
Definition info_notice (attempt : Z) (c : call) : list notice :=
  if returned (call_response c) && (0 <? attempt)
  then [st_info (call_index c + 1)] else [].

(** The notices a run of the loop shows, read off its requests: for every
    request its information notice, and for every request that is
    followed by another the warning of line 144. *)
Fixpoint expected_notices (attempt : Z) (cs : list call) : list notice :=
  match cs with
  | [] => []
  | c :: cs' =>
      info_notice attempt c ++
      match cs' with
      | [] => []
      | _ :: _ =>
          st_warning (call_index c + 1) :: expected_notices (attempt + 1) cs'
      end
  end.

(** A service on which key "A" is over quota and the answer for every
    other key comes back without a text part, so that reading
    [response.text] raises. *)
Definition answers_without_text
    (attempt : Z) (key model : string) (p c : unit) : response :=
  if decide (key = "A") then Failed "429 You exceeded your current quota"
  else Unreadable "Invalid operation: the response has no valid Part".

(** A service on which key "A" answers and every other key is over quota. *)
Definition only_A_works
    (attempt : Z) (key model : string) (p c : unit) : response :=
  if decide (key = "A") then Generated "ok"
  else Failed "429 You exceeded your current quota".

(** The credential list [init_gemini] works with (lines 71-75): the list
    of the secrets, or the single legacy key when the list is missing or
    empty. *)
Definition configured_keys (sec : secrets) : list string :=
  match default [] (gemini_api_keys sec), gemini_api_key sec with
  | [], Some k => [k]
  | keys, _ => keys
  end.

(** Client construction that fails for key "A" only. *)
Definition all_but_A (key model : string) : bool :=
  if decide (key = "A") then false else true.

Definition secrets_of (keys : list string) : secrets :=
  {| gemini_api_keys := Some keys; gemini_api_key := None;
     gemini_model := None |}.

Definition fresh_session : session_state :=
  {| api_keys := None; model_name := None; current_api_key_index := None |}.

(** A table in which one date cell could not be parsed. *)
Definition table_with_blank_date : list row :=
  [ entry 2024 11 6 "예배" "추수감사주일" "감사헌금";
    {| r_date := None; r_category := "모임"; r_title := "제직회";
       r_body := "" |} ].

(** A service that answers every request. *)
Definition always_answers
    (attempt : Z) (key model : string) (p : prompt) (c : generation_config)
  : response :=
  Generated "ok".

(** * Theorems *)

(** ** AI gateway *)

Lemma py_getitem_mod {A} (l : list A) (i : Z) :
  l ≠ [] →
  ∃ a, py_getitem l (i `mod` Z.of_nat (length l)) = Returns a ∧
       l !! Z.to_nat (i `mod` Z.of_nat (length l)) = Some a.
Proof.
  intros Hl.
  assert (0 < Z.of_nat (length l)) as Hn
    by (destruct l; simpl in *; [done | lia]).
  pose proof (Z.mod_pos_bound i _ Hn) as Hb.
  unfold py_getitem. set (j := i `mod` Z.of_nat (length l)) in *.
  destruct (Z.ltb_spec j 0); [lia|].
  destruct (Z.leb_spec 0 j); [|lia].
  destruct (Z.ltb_spec j (Z.of_nat (length l))); [|lia].
  simpl.
  destruct (lookup_lt_is_Some_2 l (Z.to_nat j)) as [a Ha]; [lia|].
  rewrite Ha. eauto.
Qed.

(** The classification of error messages on three messages. *)
Example quota_or_limit_samples :
  quota_or_limit "429 You exceeded your current QUOTA" = true ∧
  quota_or_limit "RATE_LIMIT_EXCEEDED" = true ∧
  quota_or_limit "400 API key not valid" = false.
Proof. repeat split. Qed.

(** Keys [A, B, C] with the cursor on C and only B within quota: the loop
    tries C, wraps around to A, succeeds on B and stores position 1. *)
Example rotation_wraps_around :
  call_gemini_with_retry only_B_works no_prompt no_prompt
    (session ["A"; "B"; "C"] 2)
  = {| outcome := Returns (return_text, "ok");
       state := session ["A"; "B"; "C"] 1;
       calls :=
         [ {| call_index := 2; call_key := "C";
              call_response := Failed "429 You exceeded your current quota" |};
           {| call_index := 0; call_key := "A";
              call_response := Failed "429 You exceeded your current quota" |};
           {| call_index := 1; call_key := "B";
              call_response := Generated "ok" |} ];
       notices := [st_warning 3; st_warning 1; st_info 2] |}.
Proof. vm_compute. reflexivity. Qed.

Section RetryFacts.

Context {Prompt Config : Type}.
Variable generate_content : Z → string → string → Prompt → Config → response.
Variable prompt : Prompt.
Variable generation_config : Config.
Variable keys : list string.
Variable model : string.
Variable start_index : Z.

Local Abbreviation len := (Z.of_nat (length keys)).
Local Abbreviation loop :=
  (attempts_loop generate_content prompt generation_config).
Local Abbreviation issued :=
  (issued_at generate_content prompt generation_config
     keys model start_index).

(** The session state of a run is the one its requests left. *)
Lemma attempts_loop_state (st : session_state) (attempts : list Z) :
  state (loop st keys model start_index attempts)
  = cursor_after st (calls (loop st keys model start_index attempts)).
Proof.
  revert st. induction attempts as [|a rest IH]; intros st; [done|].
  cbn [attempts_loop].
  destruct (py_getitem keys ((start_index + a) `mod` len)) as [key|e];
    [|done].
  destruct (generate_content a key model prompt generation_config)
    as [text|e|e]; [done|..]; unfold on_exception.
  all: destruct (quota_or_limit e); [|done].
  all: destruct (a <? len - 1); [|done].
  all: cbn [logged state calls]; by rewrite IH.
Qed.

(** The shape of every run of the loop from attempt [a] on: requests that
    end in the handler with a quota message, then one last request that
    decides the result. *)
Lemma attempts_loop_spec (k : nat) (a : Z) (st : session_state) :
  keys ≠ [] → 0 ≤ a → Z.of_nat k = len - a - 1 →
  ∃ (failures : list call) (final : call),
    calls (loop st keys model start_index (seqZ a (len - a)))
      = failures ++ [final] ∧
    Forall2 issued (seqZ a (Z.of_nat (length failures) + 1))
      (failures ++ [final]) ∧
    Forall (λ c, ∃ e, error_msg_of (call_response c) = Some e ∧
                      quota_or_limit e = true) failures ∧
    a + Z.of_nat (length failures) < len ∧
    match error_msg_of (call_response final) with
    | None =>
        ∃ text, call_response final = Generated text ∧
                outcome (loop st keys model start_index (seqZ a (len - a)))
                  = Returns (return_text, text)
    | Some e =>
        if quota_or_limit e
        then a + Z.of_nat (length failures) = len - 1 ∧
             outcome (loop st keys model start_index (seqZ a (len - a)))
               = Returns (return_exhausted, msg_exhausted)
        else outcome (loop st keys model start_index (seqZ a (len - a)))
               = Returns (return_error, msg_error e)
    end.
Proof.
  intros Hkeys. revert a st.
  induction k as [|k IH]; intros a st Ha Hk.
  all: rewrite (seqZ_cons a (len - a)) by lia; cbn [attempts_loop].
  all: destruct (py_getitem_mod keys (start_index + a) Hkeys)
         as (key & -> & Hkey).
  all: destruct (generate_content a key model prompt generation_config)
         as [text|e|e] eqn:Hanswer; unfold on_exception.
  all: try destruct (quota_or_limit e) eqn:Hq.
  all: try (destruct (Z.ltb_spec a (len - 1)); [|lia]).
  all: try (destruct (Z.ltb_spec a (len - 1)); [lia|]).
  all: try (eexists [], _; cbn; split; [reflexivity|];
            split; [by repeat constructor; cbn|];
            split; [constructor|]; split; [lia|];
            cbn; rewrite ?Hq; eauto; repeat split; (done || lia)).
  all: replace (Z.pred (len - a)) with (len - Z.succ a) by lia.
  all: match goal with
       | |- context [logged _ _ (attempts_loop _ _ _ ?st' _ _ _ _)] =>
           destruct (IH (Z.succ a) st')
             as (fs & fin & Hcalls & Hiss & Hfail & Hlt & Hfin); [lia|lia|]
       end.
  all: eexists (_ :: fs), fin; cbn [logged calls outcome].
  all: split; [by rewrite Hcalls|].
  all: split;
    [cbn [length]; rewrite (seqZ_cons a) by lia;
     rewrite <- app_comm_cons; constructor; [by repeat split|];
     by replace (Z.pred (Z.of_nat (S (length fs)) + 1))
       with (Z.of_nat (length fs) + 1) by lia|].
  all: split; [constructor; [cbn; eauto|done]|].
  all: cbn [length]; split; [lia|].
  all: destruct (error_msg_of (call_response fin)) as [e'|]; [|done].
  all: destruct (quota_or_limit e'); [|done].
  all: destruct Hfin; split; [lia|done].
Qed.

End RetryFacts.

Lemma cursor_after_snoc (st : session_state) (cs : list call) (c : call) :
  cursor_after st (cs ++ [c])
  = if returned (call_response c)
    then set_current_api_key_index (call_index c) (cursor_after st cs)
    else cursor_after st cs.
Proof. unfold cursor_after. by rewrite foldl_app. Qed.

(** Requests that raised leave the session state alone. *)
Lemma cursor_after_raised (st : session_state) (cs : list call) :
  Forall (λ c, returned (call_response c) = false) cs →
  cursor_after st cs = st.
Proof.
  induction cs as [|c cs IH] using rev_ind; [done|].
  intros [Hcs Hc]%Forall_app. apply Forall_inv in Hc.
  rewrite cursor_after_snoc, Hc. by apply IH.
Qed.

(** Storing a cursor touches neither the key list nor the model name. *)
Lemma cursor_after_fields (st : session_state) (cs : list call) :
  api_keys (cursor_after st cs) = api_keys st ∧
  model_name (cursor_after st cs) = model_name st.
Proof.
  induction cs as [|c cs IH] using rev_ind; [done|].
  rewrite cursor_after_snoc. by destruct (returned (call_response c)).
Qed.

Section GatewayClaims.

Context {Prompt Config : Type}.
Variable generate_content : Z → string → string → Prompt → Config → response.
Variable prompt : Prompt.
Variable generation_config : Config.
Variable st : session_state.

Local Abbreviation keys := (default [] (api_keys st)).
Local Abbreviation model := (default default_model (model_name st)).
Local Abbreviation start_index := (default 0 (current_api_key_index st)).
Local Abbreviation r :=
  (call_gemini_with_retry generate_content prompt generation_config st).

Lemma call_gemini_with_retry_spec :
  keys ≠ [] →
  ∃ (failures : list call) (final : call),
    calls r = failures ++ [final] ∧
    Forall2 (issued_at generate_content prompt generation_config
               keys model start_index)
      (seqZ 0 (Z.of_nat (length failures) + 1)) (failures ++ [final]) ∧
    Forall (λ c, ∃ e, error_msg_of (call_response c) = Some e ∧
                      quota_or_limit e = true) failures ∧
    (length failures < length keys)%nat ∧
    match error_msg_of (call_response final) with
    | None =>
        ∃ text, call_response final = Generated text ∧
                outcome r = Returns (return_text, text)
    | Some e =>
        if quota_or_limit e
        then S (length failures) = length keys ∧
             outcome r = Returns (return_exhausted, msg_exhausted)
        else outcome r = Returns (return_error, msg_error e)
    end.
Proof.
  intros Hkeys.
  assert (0 < length keys)%nat as Hlen
    by (destruct keys; simpl in *; [done|lia]).
  destruct (attempts_loop_spec generate_content prompt generation_config
              keys model start_index (length keys - 1) 0 st)
    as (fs & fin & Hcalls & Hiss & Hfail & Hlt & Hfin); [done|lia|lia|].
  rewrite Z.sub_0_r in *.
  exists fs, fin. unfold call_gemini_with_retry.
  repeat (split; [done || lia|]).
  destruct (error_msg_of (call_response fin)) as [e|]; [|done].
  destruct (quota_or_limit e); [|done].
  destruct Hfin. split; [lia|done].
Qed.

Lemma call_gemini_with_retry_state :
  state r = cursor_after st (calls r).
Proof. apply attempts_loop_state. Qed.

Lemma call_gemini_with_retry_no_keys :
  keys = [] →
  r = {| outcome := Returns (return_fallback, msg_fallback);
         state := st; calls := []; notices := [] |}.
Proof. unfold call_gemini_with_retry. by intros ->. Qed.


(** C10.  With a non-empty credential list the function returns from
    inside the attempt loop: the generated text, the fixed all-exhausted
    message, or a message embedding a raw error.  The return statement
    after the loop, with its generic fallback string, is the one taken
    if and only if the credential list read from the session state is
    empty. *)
Theorem fallback_iff_no_credentials :
  (keys ≠ [] →
     (∃ text, outcome r = Returns (return_text, text)) ∨
     outcome r = Returns (return_exhausted, msg_exhausted) ∨
     (∃ e, outcome r = Returns (return_error, msg_error e))) ∧
  (outcome r = Returns (return_fallback, msg_fallback) ↔ keys = []).
Proof.
  assert (keys ≠ [] →
     (∃ text, outcome r = Returns (return_text, text)) ∨
     outcome r = Returns (return_exhausted, msg_exhausted) ∨
     (∃ e, outcome r = Returns (return_error, msg_error e))) as Hin.
  { intros Hkeys.
    destruct (call_gemini_with_retry_spec Hkeys)
      as (fs & fin & _ & _ & _ & _ & Hfin).
    destruct (error_msg_of (call_response fin)) as [e|].
    2: { left. destruct Hfin as (text & _ & Hout). by exists text. }
    right.
    destruct (quota_or_limit e); [left; apply Hfin|right; eauto]. }
  split; [done|]. split.
  - intros Hout. destruct (decide (keys = [])) as [|Hkeys]; [done|].
    destruct (Hin Hkeys) as [[? H]|[H|[? H]]]; rewrite H in Hout; done.
  - intros Hnil. by rewrite (call_gemini_with_retry_no_keys Hnil).
Qed.

End GatewayClaims.

(** C1 at the credential list [A, B] with the cursor on A, where the
    request for A raises a quota error and the request for B returns a
    response whose text cannot be read.  Line 130 has stored position 1
    and line 134 shown the information notice before line 136 raises, so
    the call ends with the error message of a failed attempt and with the
    cursor moved from 0 to the position of that attempt. *)
Theorem cursor_moves_before_text_is_read :
  call_gemini_with_retry answers_without_text no_prompt no_prompt
    (session ["A"; "B"] 0)
  = {| outcome :=
         Returns (return_error,
                  msg_error
                    "Invalid operation: the response has no valid Part");
       state := session ["A"; "B"] 1;
       calls :=
         [ {| call_index := 0; call_key := "A";
              call_response := Failed "429 You exceeded your current quota" |};
           {| call_index := 1; call_key := "B";
              call_response :=
                Unreadable
                  "Invalid operation: the response has no valid Part" |} ];
       notices := [st_warning 1; st_info 2] |}.
Proof. vm_compute. reflexivity. Qed.

(** C4.  With the credential list [A, B, C], start index 0 and every
    credential failing with a quota or limit error, the invocation sends
    exactly three requests, to A, B and C in this order, and returns the
    fixed all-exhausted message; it returns normally, no exception leaves
    it, and the cursor is left as it was. *)
Theorem three_quota_failures_exhaust {Prompt Config : Type}
    (generate_content : Z → string → string → Prompt → Config → response)
    (prompt : Prompt) (generation_config : Config)
    (st : session_state) (A B C : string) :
  api_keys st = Some [A; B; C] →
  default 0 (current_api_key_index st) = 0 →
  (∀ (attempt : Z) (key : string),
     key ∈ [A; B; C] →
     ∃ e, generate_content attempt key
            (default default_model (model_name st)) prompt generation_config
          = Failed e ∧
          quota_or_limit e = true) →
  outcome (call_gemini_with_retry generate_content prompt generation_config st)
    = Returns (return_exhausted, msg_exhausted) ∧
  call_key <$>
    calls (call_gemini_with_retry generate_content prompt generation_config st)
    = [A; B; C] ∧
  call_index <$>
    calls (call_gemini_with_retry generate_content prompt generation_config st)
    = [0; 1; 2] ∧
  state (call_gemini_with_retry generate_content prompt generation_config st)
    = st.
Proof.
  intros Hkeys Hstart Hquota.
  unfold call_gemini_with_retry. rewrite Hkeys, Hstart.
  change (seqZ 0 (Z.of_nat (length (default [] (Some [A; B; C])))))
    with [0; 1; 2].
  cbn.
  change ((0 + 0) `mod` Z.of_nat 3) with 0.
  change ((0 + 1) `mod` Z.of_nat 3) with 1.
  change ((0 + 2) `mod` Z.of_nat 3) with 2.
  change (py_getitem [A; B; C] 0) with (Returns A).
  change (py_getitem [A; B; C] 1) with (Returns B).
  change (py_getitem [A; B; C] 2) with (Returns C).
  cbn.
  destruct (Hquota 0 A) as (ea & -> & Ha); [set_solver|].
  destruct (Hquota 1 B) as (eb & -> & Hb); [set_solver|].
  destruct (Hquota 2 C) as (ec & -> & Hc); [set_solver|].
  unfold on_exception. rewrite Ha, Hb, Hc. done.
Qed.

Lemma three_quota_failures_exhaust_witness :
  api_keys (session ["A"; "B"; "C"] 0) = Some ["A"; "B"; "C"] ∧
  default 0 (current_api_key_index (session ["A"; "B"; "C"] 0)) = 0 ∧
  outcome (call_gemini_with_retry all_over_quota no_prompt no_prompt
             (session ["A"; "B"; "C"] 0))
    = Returns (return_exhausted, msg_exhausted) ∧
  call_key <$>
    calls (call_gemini_with_retry all_over_quota no_prompt no_prompt
             (session ["A"; "B"; "C"] 0))
    = ["A"; "B"; "C"] ∧
  call_index <$>
    calls (call_gemini_with_retry all_over_quota no_prompt no_prompt
             (session ["A"; "B"; "C"] 0))
    = [0; 1; 2] ∧
  state (call_gemini_with_retry all_over_quota no_prompt no_prompt
           (session ["A"; "B"; "C"] 0))
    = session ["A"; "B"; "C"] 0.
Proof.
  split; [reflexivity|]. split; [reflexivity|].
  apply (three_quota_failures_exhaust all_over_quota no_prompt no_prompt
           (session ["A"; "B"; "C"] 0) "A" "B" "C");
    [reflexivity|reflexivity|].
  intros attempt key _. eexists. split; reflexivity.
Defined.


Lemma fallback_iff_no_credentials_witness :
  default [] (api_keys (session ["A"; "B"] 1)) ≠ [] ∧
  ((∃ text, outcome (call_gemini_with_retry only_A_over_quota no_prompt
                       no_prompt (session ["A"; "B"] 1))
            = Returns (return_text, text)) ∨
   outcome (call_gemini_with_retry only_A_over_quota no_prompt no_prompt
              (session ["A"; "B"] 1))
     = Returns (return_exhausted, msg_exhausted) ∨
   (∃ e, outcome (call_gemini_with_retry only_A_over_quota no_prompt
                    no_prompt (session ["A"; "B"] 1))
         = Returns (return_error, msg_error e))) ∧
  (outcome (call_gemini_with_retry only_A_over_quota no_prompt no_prompt
              (session ["A"; "B"] 1))
     = Returns (return_fallback, msg_fallback)
   ↔ default [] (api_keys (session ["A"; "B"] 1)) = []).
Proof.
  destruct (fallback_iff_no_credentials only_A_over_quota no_prompt no_prompt
              (session ["A"; "B"] 1)) as [Hloop Hiff].
  split; [discriminate|]. split; [apply Hloop; discriminate|exact Hiff].
Defined.

(** C6, as the code has it.  With an empty credential list
    [call_gemini_with_retry] sends no request, shows no notice, leaves the
    session state as it was and returns normally, from the statement after
    the loop, the generic message "API call failed".  The configuration
    error belongs to [init_gemini]: with no key in the secrets it shows
    the missing-key message, constructs no client, stores nothing in the
    session state and returns no model. *)
Theorem empty_credentials_fall_through {Prompt Config : Type}
    (generate_content : Z → string → string → Prompt → Config → response)
    (prompt : Prompt) (generation_config : Config)
    (construct : string → string → bool) (sec : secrets)
    (st : session_state) :
  (default [] (api_keys st) = [] →
     call_gemini_with_retry generate_content prompt generation_config st
     = {| outcome := Returns (return_fallback, msg_fallback);
          state := st; calls := []; notices := [] |}) ∧
  (default [] (gemini_api_keys sec) = [] → gemini_api_key sec = None →
     init_gemini construct (secrets_loaded sec) st
     = {| init_model := None; init_state := st;
          init_notices := [st_error msg_no_api_key];
          init_constructed := [] |}).
Proof.
  split.
  - apply call_gemini_with_retry_no_keys.
  - intros Hkeys Hkey. unfold init_gemini. by rewrite Hkeys, Hkey.
Qed.

Lemma empty_credentials_fall_through_witness :
  default [] (api_keys (session [] 0)) = [] ∧
  default []
    (gemini_api_keys {| gemini_api_keys := None; gemini_api_key := None;
                        gemini_model := None |}) = [] ∧
  gemini_api_key {| gemini_api_keys := None; gemini_api_key := None;
                    gemini_model := None |} = None ∧
  call_gemini_with_retry all_over_quota no_prompt no_prompt (session [] 0)
  = {| outcome := Returns (return_fallback, msg_fallback);
       state := session [] 0; calls := []; notices := [] |} ∧
  init_gemini (λ _ _, true)
    (secrets_loaded {| gemini_api_keys := None; gemini_api_key := None;
                       gemini_model := None |}) (session [] 0)
  = {| init_model := None; init_state := session [] 0;
       init_notices := [st_error msg_no_api_key];
       init_constructed := [] |}.
Proof.
  destruct (empty_credentials_fall_through all_over_quota no_prompt no_prompt
              (λ _ _, true)
              {| gemini_api_keys := None; gemini_api_key := None;
                 gemini_model := None |} (session [] 0))
    as [Hcall Hinit].
  split; [reflexivity|]. split; [reflexivity|]. split; [reflexivity|].
  split; [apply Hcall; reflexivity|apply Hinit; reflexivity].
Defined.

(** C6, as stated, fails: on the empty credential list the function does
    send no request, but what it returns is the generic fallback message
    and not a configuration error. *)
Lemma empty_credentials_not_a_configuration_error :
  calls (call_gemini_with_retry all_over_quota no_prompt no_prompt
           (session [] 0)) = [] ∧
  outcome (call_gemini_with_retry all_over_quota no_prompt no_prompt
             (session [] 0)) = Returns (return_fallback, msg_fallback) ∧
  ¬ reports_configuration_error
      (call_gemini_with_retry all_over_quota no_prompt no_prompt
         (session [] 0)).
Proof.
  split; [reflexivity|]. split; [reflexivity|].
  intros [[e He]|[[x Hx]|Hn]].
  - discriminate He.
  - discriminate Hx.
  - cbn in Hn. by apply elem_of_nil in Hn.
Qed.

(** ** Historical week matcher *)

(** The week numbers of three dates, as [isocalendar] gives them: the last
    days of December can belong to week 1 of the next year, the first days
    of January to week 52 or 53 of the year before. *)
Example isoweek_samples :
  isoweek {| year := 2024; month := 12; day := 30 |} = 1 ∧
  isoweek {| year := 2021; month := 1; day := 3 |} = 53 ∧
  isoweek today = 45.
Proof. repeat split. Qed.

Example get_this_week_history_sample :
  get_this_week_history sample_table today = Returns sample_history.
Proof. vm_compute. reflexivity. Qed.

Section HistoryFacts.

Variable df : list row.
Variable current_date : date.

Local Abbreviation year_data y :=
  (filter (λ r, week_mask current_date y r) df).

(** Whatever the loop stores under a year is that year's non-empty
    selection, unless the dictionary held it before. *)
Lemma years_loop_lookup (years : list Z) (history : gmap Z (list row))
    (y : Z) (rows : list row) :
  years_loop df current_date years history !! y = Some rows →
  history !! y = Some rows ∨
  (y ∈ years ∧ rows = year_data y ∧ rows ≠ []).
Proof.
  revert history.
  induction years as [|y' years IH]; intros history Hlookup; [by left|].
  cbn [years_loop] in Hlookup. apply IH in Hlookup as [Hold|Hnew].
  - destruct (year_data y') as [|r rs] eqn:Hdata; [by left|].
    destruct (decide (y' = y)) as [->|Hne].
    + rewrite lookup_insert_eq in Hold. injection Hold as <-.
      right. rewrite Hdata. split; [apply elem_of_cons; by left|done].
    + rewrite lookup_insert_ne in Hold by done. by left.
  - right. destruct Hnew as (? & ? & ?).
    split; [apply elem_of_cons; by right|done].
Qed.

(** A selection the loop stored stays as it is: a later iteration for
    the same year would store the same rows. *)
Lemma years_loop_keeps (years : list Z) (history : gmap Z (list row))
    (y : Z) :
  history !! y = Some (year_data y) →
  years_loop df current_date years history !! y = Some (year_data y).
Proof.
  revert history.
  induction years as [|y' years IH]; intros history Hold; [done|].
  cbn [years_loop]. apply IH.
  destruct (year_data y') as [|r rs] eqn:Hdata; [done|].
  destruct (decide (y' = y)) as [->|Hne].
  - by rewrite lookup_insert_eq, Hdata.
  - by rewrite lookup_insert_ne.
Qed.

(** Every year the loop visits with a non-empty selection is stored. *)
Lemma years_loop_stores (years : list Z) (history : gmap Z (list row))
    (y : Z) :
  y ∈ years → year_data y ≠ [] →
  years_loop df current_date years history !! y = Some (year_data y).
Proof.
  revert history.
  induction years as [|y' years IH]; intros history Hin Hdata.
  { by apply elem_of_nil in Hin. }
  cbn [years_loop]. apply elem_of_cons in Hin as [->|Hin]; [|by apply IH].
  apply years_loop_keeps.
  destruct (year_data y') as [|r rs] eqn:Hrows; [done|].
  by rewrite lookup_insert_eq.
Qed.

Lemma week_mask_spec (y : Z) (r : row) :
  week_mask current_date y r ↔
  ∃ d, r_date r = Some d ∧ year d = y ∧
       (isoweek d = isoweek current_date ∨
        (month d = month current_date ∧
         day current_date - 7 ≤ day d ≤ day current_date + 7)).
Proof.
  rewrite Is_true_true. unfold week_mask, between.
  destruct (r_date r) as [d|].
  - rewrite andb_true_iff, orb_true_iff, !andb_true_iff.
    rewrite !Z.eqb_eq, !Z.leb_le. split.
    + intros (? & Hm). exists d. naive_solver lia.
    + intros (d' & [= <-] & ? & Hm). naive_solver lia.
  - split; [done|]. by intros (? & ? & _).
Qed.

(** C2.  Every entry that [get_this_week_history] places under a key Y
    is a row of the table whose date has year Y, with Y strictly below
    the year of the reference date, and whose date lies in the ISO week
    of the reference date or has the month of the reference date and a
    day in the closed interval from day - 7 to day + 7, the bounds taken
    as computed, without calendar rollover. *)
Theorem history_entries_match (history : gmap Z (list row))
    (y : Z) (rows : list row) (r : row) :
  get_this_week_history df current_date = Returns history →
  history !! y = Some rows →
  r ∈ rows →
  r ∈ df ∧ y < year current_date ∧
  ∃ d, r_date r = Some d ∧ year d = y ∧
       (isoweek d = isoweek current_date ∨
        (month d = month current_date ∧
         day current_date - 7 ≤ day d ≤ day current_date + 7)).
Proof.
  unfold get_this_week_history. intros Hget Hlookup Hr.
  destruct (dt_year_min df) as [first_year|] eqn:Hmin; [|done].
  injection Hget as <-.
  apply years_loop_lookup in Hlookup as [Hempty|(Hy & -> & _)]; [done|].
  apply elem_of_seqZ in Hy.
  apply list_elem_of_filter in Hr as [Hmask Hdf].
  split; [done|]. split; [lia|]. by apply week_mask_spec.
Qed.

Lemma dt_year_min_same_year (y : Z) :
  df ≠ [] →
  (∀ r, r ∈ df → ∃ d, r_date r = Some d ∧ year d = y) →
  dt_year_min df = Returns y.
Proof.
  intros Hne Hall.
  assert (mapM (λ r, year <$> r_date r) df = Some (replicate (length df) y))
    as Hyears.
  { clear Hne. induction df as [|r l IH]; [done|].
    cbn. destruct (Hall r) as (d & -> & <-); [apply elem_of_cons; by left|].
    cbn.
    rewrite IH; [done|]. intros r' Hr'. apply Hall.
    apply elem_of_cons. by right. }
  unfold dt_year_min. rewrite Hyears.
  destruct df as [|r l]; [done|]. cbn. f_equal.
  clear. induction l as [|r' l IH]; [done|]. cbn. rewrite IH. lia.
Qed.

(** The function returns on every non-empty table without a missing date. *)
Lemma get_this_week_history_returns :
  df ≠ [] → Forall (λ r, is_Some (r_date r)) df →
  ∃ history, get_this_week_history df current_date = Returns history.
Proof.
  intros Hne Hdates. unfold get_this_week_history, dt_year_min.
  assert (∃ ys, mapM (λ r, year <$> r_date r) df = Some ys ∧
                length ys = length df) as (ys & -> & Hlen).
  { clear Hne. induction Hdates as [|r l [d Hd] _ (ys & IH & Hlen)].
    - by exists [].
    - exists (year d :: ys). cbn. rewrite Hd. cbn. rewrite IH. cbn.
      by rewrite Hlen. }
  destruct df as [|r l]; [done|].
  destruct ys as [|y ys]; [done|]. cbn. eauto.
Qed.

(** Every year from the first year of the table up to the year before the
    reference date that has a qualifying entry is a key of the result, and
    its value is the selection of that year in table order. *)
Lemma history_complete (first_year : Z) (history : gmap Z (list row))
    (y : Z) :
  dt_year_min df = Returns first_year →
  get_this_week_history df current_date = Returns history →
  first_year ≤ y < year current_date →
  year_data y ≠ [] →
  history !! y = Some (year_data y).
Proof.
  unfold get_this_week_history. intros -> [= <-] Hy Hdata.
  apply years_loop_stores; [|done]. apply elem_of_seqZ. lia.
Qed.

(** C8.  A year with no qualifying entry is absent from the result, so
    no key of the result maps to an empty sequence; and from a table
    that holds entries of the reference year only the result is the
    empty dictionary. *)
Theorem history_omits_empty_years :
  (∀ history, get_this_week_history df current_date = Returns history →
     ∀ y, (year_data y = [] → history !! y = None) ∧
          history !! y ≠ Some []) ∧
  (df ≠ [] →
   (∀ r, r ∈ df → ∃ d, r_date r = Some d ∧ year d = year current_date) →
   get_this_week_history df current_date = Returns ∅).
Proof.
  split.
  - unfold get_this_week_history. intros history Hget y.
    destruct (dt_year_min df) as [first_year|] eqn:Hmin; [|done].
    injection Hget as <-. split.
    + intros Hdata.
      destruct (years_loop _ _ _ _ !! y) as [rows|] eqn:Hlookup; [|done].
      apply years_loop_lookup in Hlookup as [?|(_ & -> & ?)]; done.
    + intros Hlookup.
      apply years_loop_lookup in Hlookup as [?|(_ & _ & ?)]; done.
  - intros Hne Hall. unfold get_this_week_history.
    rewrite (dt_year_min_same_year _ Hne Hall). cbn.
    by rewrite seqZ_nil by lia.
Qed.

End HistoryFacts.

Lemma history_entries_match_witness :
  get_this_week_history sample_table today = Returns sample_history ∧
  sample_history !! 2025 = Some [entry 2025 11 10 "모임" "구역장 모임" ""] ∧
  entry 2025 11 10 "모임" "구역장 모임" ""
    ∈ [entry 2025 11 10 "모임" "구역장 모임" ""] ∧
  (entry 2025 11 10 "모임" "구역장 모임" "" ∈ sample_table ∧
   2025 < year today ∧
   ∃ d, r_date (entry 2025 11 10 "모임" "구역장 모임" "") = Some d ∧
        year d = 2025 ∧
        (isoweek d = isoweek today ∨
         (month d = month today ∧ day today - 7 ≤ day d ≤ day today + 7))).
Proof.
  split; [vm_compute; reflexivity|].
  split; [vm_compute; reflexivity|].
  split; [apply elem_of_cons; by left|].
  apply (history_entries_match sample_table today sample_history 2025
           [entry 2025 11 10 "모임" "구역장 모임" ""]).
  - vm_compute; reflexivity.
  - vm_compute; reflexivity.
  - apply elem_of_cons; by left.
Defined.

Lemma history_omits_empty_years_witness :
  this_year_only ≠ [] ∧
  (∀ r, r ∈ this_year_only → ∃ d, r_date r = Some d ∧ year d = year today) ∧
  get_this_week_history this_year_only today = Returns ∅ ∧
  (∀ history,
     get_this_week_history this_year_only today = Returns history →
     ∀ y, (filter (λ r, week_mask today y r) this_year_only = [] →
           history !! y = None) ∧
          history !! y ≠ Some []).
Proof.
  assert (∀ r, r ∈ this_year_only →
               ∃ d, r_date r = Some d ∧ year d = year today) as Hall.
  { intros r Hr. unfold this_year_only in Hr.
    repeat (apply elem_of_cons in Hr as [->|Hr]);
      [eexists; split; reflexivity..|by apply elem_of_nil in Hr]. }
  destruct (history_omits_empty_years this_year_only today) as [Homit Honly].
  split; [discriminate|]. split; [exact Hall|].
  split; [apply Honly; [discriminate|exact Hall]|exact Homit].
Defined.

(** ** Recurring event detector *)

Lemma elem_of_groupby_title (rows : list row) (g : string * list row) :
  g ∈ groupby_title rows ↔
  ∃ r, r ∈ rows ∧ g = (r_title r, filter (λ r', r_title r' = r_title r) rows).
Proof.
  unfold groupby_title. rewrite list_elem_of_fmap.
  setoid_rewrite merge_sort_Permutation.
  setoid_rewrite elem_of_remove_dups.
  setoid_rewrite list_elem_of_fmap. naive_solver.
Qed.

(** The keys of [groupby] are in strictly ascending order. *)
Lemma groupby_title_keys_sorted (rows : list row) :
  Sorted String.le (groupby_title rows).*1 ∧ NoDup (groupby_title rows).*1.
Proof.
  unfold groupby_title. rewrite <- list_fmap_compose.
  rewrite (list_fmap_ext _ id (merge_sort _ _)) by done.
  rewrite list_fmap_id. split.
  - apply (Sorted_merge_sort _).
  - rewrite merge_sort_Permutation. apply NoDup_remove_dups.
Qed.

Section RecurringFacts.

Variable df : list row.
Variable month : Z.

Local Abbreviation month_data := (filter (λ r, month_mask month r) df).

Lemma month_group (t : string) :
  filter (λ r, r_title r = t) month_data
  = filter (λ r, r_title r = t ∧ month_mask month r) df.
Proof. apply list_filter_filter. Qed.

(** What the aggregation computes for the group of one title. *)
Lemma agg_month_group (r : row) :
  r ∈ month_data →
  e_title (agg (r_title r, filter (λ r', r_title r' = r_title r) month_data))
    = r_title r ∧
  e_count (agg (r_title r, filter (λ r', r_title r' = r_title r) month_data))
    = occurrences df month (r_title r) ∧
  ∃ r0, first_entry df month (r_title r) r0 ∧
    e_category
      (agg (r_title r, filter (λ r', r_title r' = r_title r) month_data))
      = r_category r0 ∧
    e_body
      (agg (r_title r, filter (λ r', r_title r' = r_title r) month_data))
      = r_body r0.
Proof.
  intros Hr. unfold agg, occurrences. cbn [fst snd e_title e_count
    e_category e_body].
  rewrite month_group. split; [done|]. split.
  - rewrite list_filter_filter. do 2 f_equal.
    apply list_filter_iff. intros r'. split; [naive_solver|].
    intros [? Hm]. split; [|done].
    unfold month_mask in Hm. by destruct (r_date r').
  - assert (r ∈ filter (λ r', r_title r' = r_title r ∧ month_mask month r') df)
      as Hin.
    { apply list_elem_of_filter in Hr as [? ?].
      by apply list_elem_of_filter. }
    destruct (head (filter (λ r', r_title r' = r_title r ∧ month_mask month r')
                      df)) as [r0|] eqn:Hhead; cbn [from_option].
    2: { apply head_None in Hhead. rewrite Hhead in Hin.
         by apply elem_of_nil in Hin. }
    exists r0. split; [|done].
    destruct (head_filter_Some _ _ _ Hhead) as (l1 & l2 & -> & Hbefore).
    exists l1, l2. split; [done|]. split; [|done].
    apply head_Some_elem_of, list_elem_of_filter in Hhead. apply Hhead.
Qed.

Lemma occurrences_pos (t : string) :
  0 < occurrences df month t → ∃ r, r ∈ month_data ∧ r_title r = t.
Proof.
  unfold occurrences. intros Hpos.
  destruct (head (filter (λ r', r_title r' = t ∧ month_mask month r') df))
    as [r|] eqn:Hhead.
  2: { apply head_None in Hhead. rewrite Hhead in Hpos. simpl in Hpos. lia. }
  exists r.
  apply head_Some_elem_of, list_elem_of_filter in Hhead as [[? ?] ?].
  split; [by apply list_elem_of_filter|done].
Qed.

Section WithSort.

Variable sort_values : list event → list event.
Context {Hsort : SortValues sort_values}.

Local Abbreviation result := (find_recurring_events sort_values df month).

Lemma find_recurring_events_perm :
  result ≡ₚ filter (λ e, 3 ≤ e_count e) (agg <$> groupby_title month_data).
Proof.
  unfold find_recurring_events.
  destruct month_data as [|r rows]; [done|]. apply sort_values_perm.
Qed.

Lemma find_recurring_events_sorted : Sorted by_count_desc result.
Proof.
  unfold find_recurring_events.
  destruct month_data as [|r rows]; [constructor|].
  apply sort_values_sorted.
Qed.

Lemma elem_of_find_recurring_events (e : event) :
  e ∈ result ↔
  3 ≤ e_count e ∧
  ∃ r, r ∈ month_data ∧
       e = agg (r_title r,
                filter (λ r', r_title r' = r_title r) month_data).
Proof.
  rewrite find_recurring_events_perm, list_elem_of_filter.
  rewrite list_elem_of_fmap. setoid_rewrite elem_of_groupby_title.
  naive_solver.
Qed.

(** C3.  Every group that [find_recurring_events] returns has a count
    of at least 3, the count being the number of entries of that month
    with the group's title; its category and body are those of the
    first such entry in table order; the sequence is in descending
    order of count; every title with at least 3 entries in the month
    has a group; and the result is empty if and only if no title
    reaches 3 entries in the month across all years. *)
Theorem recurring_events_sound :
  (∀ e, e ∈ result →
     3 ≤ e_count e ∧
     e_count e = occurrences df month (e_title e) ∧
     ∃ r, first_entry df month (e_title e) r ∧
          e_category e = r_category r ∧ e_body e = r_body r) ∧
  Sorted by_count_desc result ∧
  (∀ t, 3 ≤ occurrences df month t → ∃ e, e ∈ result ∧ e_title e = t) ∧
  (result = [] ↔ ∀ t, occurrences df month t < 3).
Proof.
  assert (∀ e, e ∈ result →
     3 ≤ e_count e ∧
     e_count e = occurrences df month (e_title e) ∧
     ∃ r, first_entry df month (e_title e) r ∧
          e_category e = r_category r ∧ e_body e = r_body r) as Hsound.
  { intros e (Hcount & r & Hr & ->)%elem_of_find_recurring_events.
    destruct (agg_month_group r Hr) as (Ht & Hc & r0 & Hfirst & ? & ?).
    split; [done|]. rewrite Ht. split; [done|]. by exists r0. }
  assert (∀ t, 3 ≤ occurrences df month t →
               ∃ e, e ∈ result ∧ e_title e = t) as Hcomplete.
  { intros t Ht. destruct (occurrences_pos t) as (r & Hr & <-); [lia|].
    destruct (agg_month_group r Hr) as (Htitle & Hc & _).
    eexists. split; [|exact Htitle].
    apply elem_of_find_recurring_events. split; [lia|]. by exists r. }
  split; [done|]. split; [apply find_recurring_events_sorted|].
  split; [done|]. split.
  - intros Hnil t.
    destruct (Z.lt_ge_cases (occurrences df month t) 3) as [|Hge]; [done|].
    destruct (Hcomplete t Hge) as (e & He & _).
    rewrite Hnil in He. by apply elem_of_nil in He.
  - intros Hfew. destruct result as [|e rest] eqn:Hres; [done|].
    destruct (Hsound e) as (Hge & Hc & _); [apply elem_of_cons; by left|].
    specialize (Hfew (e_title e)). lia.
Qed.

End WithSort.

End RecurringFacts.

(** Merge sort keeps the promise of [sort_values]. *)
Lemma merge_sort_values_ok : SortValues merge_sort_values.
Proof.
  assert (Total by_count_desc) by (intros a b; unfold by_count_desc; lia).
  split; intros l.
  - apply merge_sort_Permutation.
  - apply (Sorted_merge_sort _).
Qed.

Lemma recurring_events_sound_witness :
  SortValues merge_sort_values ∧
  ((∀ e, e ∈ find_recurring_events merge_sort_values march_table 3 →
      3 ≤ e_count e ∧
      e_count e = occurrences march_table 3 (e_title e) ∧
      ∃ r, first_entry march_table 3 (e_title e) r ∧
           e_category e = r_category r ∧ e_body e = r_body r) ∧
   Sorted by_count_desc (find_recurring_events merge_sort_values march_table 3) ∧
   (∀ t, 3 ≤ occurrences march_table 3 t →
         ∃ e, e ∈ find_recurring_events merge_sort_values march_table 3 ∧
              e_title e = t) ∧
   (find_recurring_events merge_sort_values march_table 3 = [] ↔
    ∀ t, occurrences march_table 3 t < 3)).
Proof.
  split; [exact merge_sort_values_ok|].
  apply (@recurring_events_sound march_table 3 merge_sort_values
           merge_sort_values_ok).
Defined.

(** The March table run through the model. *)
Example find_recurring_events_march :
  find_recurring_events merge_sort_values march_table 3
  = [ {| e_title := "봄맞이 대청소"; e_count := 4;
         e_category := "행사"; e_body := "교회 안팎 청소" |};
      {| e_title := "부활절 준비"; e_count := 3;
         e_category := "예배"; e_body := "" |} ].
Proof. vm_compute. reflexivity. Qed.

(** *** Order of tied groups *)

(** C7, as stated, fails.  The two tables hold the same March entries, "a"
    three times and "b" three times; "a" comes first in one and "b" in the
    other.  Whatever routine sorts by count, the two results are the same
    sequence, so in one of the tables the tied groups do not stand in the
    order of their first occurrence. *)
Lemma tie_order_not_first_occurrence :
  ¬ ∃ sort_values : list event → list event,
      SortValues sort_values ∧
      ties_in_first_occurrence_order table_a_first 3
        (find_recurring_events sort_values table_a_first 3) ∧
      ties_in_first_occurrence_order table_b_first 3
        (find_recurring_events sort_values table_b_first 3).
Proof.
  intros (sort_values & Hsort & Ha & Hb).
  pose (ea := {| e_title := "a"; e_count := 3;
                 e_category := "c"; e_body := "" |}).
  pose (eb := {| e_title := "b"; e_count := 3;
                 e_category := "c"; e_body := "" |}).
  assert (find_recurring_events sort_values table_a_first 3
          = sort_values [ea; eb]) as Hresa by (vm_compute; reflexivity).
  assert (find_recurring_events sort_values table_b_first 3
          = sort_values [ea; eb]) as Hresb by (vm_compute; reflexivity).
  rewrite Hresa in Ha. rewrite Hresb in Hb.
  pose proof (sort_values_perm [ea; eb]) as Hperm. symmetry in Hperm.
  apply Permutation_length_2_inv in Hperm as [Hres|Hres];
    rewrite Hres in Ha, Hb.
  - specialize (Hb 1%nat 0%nat eb ea 0%nat 3%nat).
    assert (1 < 0)%nat; [|lia].
    apply Hb; (reflexivity || lia).
  - specialize (Ha 1%nat 0%nat ea eb 0%nat 3%nat).
    assert (1 < 0)%nat; [|lia].
    apply Ha; (reflexivity || lia).
Qed.

Lemma filter_title_none (t : string) (l : list row) :
  Forall (λ r, r_title r ≠ t) l → filter (λ r, r_title r = t) l = [].
Proof.
  induction 1 as [|r l Hr _ IH]; [done|].
  rewrite filter_cons. by destruct (decide (r_title r = t)).
Qed.

(** C7, as the code has it.  [groupby] arranges the groups by title before
    the sort by count sees them, so the sequence returned depends on the
    entries of each title only: two tables whose entries of the month agree
    title by title give the same sequence, whichever title occurs first.
    The order among tied groups is the one the sort gives to the groups in
    title order. *)
Theorem tie_order_from_title_order
    (sort_values : list event → list event) (df1 df2 : list row) (month : Z) :
  (∀ t, filter (λ r, r_title r = t) (filter (λ r, month_mask month r) df1)
      = filter (λ r, r_title r = t) (filter (λ r, month_mask month r) df2)) →
  find_recurring_events sort_values df1 month
  = find_recurring_events sort_values df2 month.
Proof.
  unfold find_recurring_events.
  generalize (filter (λ r, month_mask month r) df1) as rows1.
  generalize (filter (λ r, month_mask month r) df2) as rows2.
  intros rows2 rows1 Hsame.
  assert (∀ r, r ∈ rows1 ↔ r ∈ rows2) as Helem.
  { intros r. split; intros Hr.
    - assert (r ∈ filter (λ r', r_title r' = r_title r) rows2) as Hin
        by (rewrite <- Hsame; by apply list_elem_of_filter).
      by apply list_elem_of_filter in Hin as [_ ?].
    - assert (r ∈ filter (λ r', r_title r' = r_title r) rows1) as Hin
        by (rewrite Hsame; by apply list_elem_of_filter).
      by apply list_elem_of_filter in Hin as [_ ?]. }
  assert (groupby_title rows1 = groupby_title rows2) as Hgroups.
  { unfold groupby_title.
    assert (merge_sort String.le (remove_dups (r_title <$> rows1))
            = merge_sort String.le (remove_dups (r_title <$> rows2))) as ->.
    { apply (Sorted_unique String.le); [apply (Sorted_merge_sort _)..|].
      rewrite !merge_sort_Permutation.
      apply NoDup_Permutation; [apply NoDup_remove_dups..|].
      intros t. rewrite !elem_of_remove_dups, !list_elem_of_fmap.
      by setoid_rewrite Helem. }
    apply list_fmap_ext. intros _ t _. by rewrite Hsame. }
  destruct rows1 as [|r1 rows1], rows2 as [|r2 rows2].
  - done.
  - destruct (Helem r2) as [_ Hr]. exfalso.
    eapply elem_of_nil, Hr, elem_of_cons. by left.
  - destruct (Helem r1) as [Hr _]. exfalso.
    eapply elem_of_nil, Hr, elem_of_cons. by left.
  - by rewrite Hgroups.
Qed.

Lemma tie_order_from_title_order_witness :
  (∀ t, filter (λ r, r_title r = t)
          (filter (λ r, month_mask 3 r) table_a_first)
      = filter (λ r, r_title r = t)
          (filter (λ r, month_mask 3 r) table_b_first)) ∧
  find_recurring_events merge_sort_values table_a_first 3
  = find_recurring_events merge_sort_values table_b_first 3.
Proof.
  assert (∀ t, filter (λ r, r_title r = t)
                 (filter (λ r, month_mask 3 r) table_a_first)
             = filter (λ r, r_title r = t)
                 (filter (λ r, month_mask 3 r) table_b_first)) as Hsame.
  { intros t.
    change (filter (λ r, month_mask 3 r) table_a_first) with table_a_first.
    change (filter (λ r, month_mask 3 r) table_b_first) with table_b_first.
    destruct (decide (t = "a")) as [->|Ha]; [reflexivity|].
    destruct (decide (t = "b")) as [->|Hb]; [reflexivity|].
    rewrite !filter_title_none; [reflexivity|..];
      repeat constructor; cbn; congruence. }
  split; [exact Hsame|].
  apply (tie_order_from_title_order merge_sort_values table_a_first
           table_b_first 3 Hsame).
Defined.

(** ** Suggestion composer *)

Section ComposerFacts.

Variable generate_content :
  Z → string → string → prompt → generation_config → response.
Variable sort_values : list event → list event.
Variable df : list row.
Variable target_month : Z.
Variable st : session_state.

Local Abbreviation month_data :=
  (filter (λ r, month_mask target_month r) df).

(** The two payloads of lines 207-208 are bounded prefixes: at most 50
    entries of the month, in table order, and at most 20 groups. *)
Lemma payload_bounds :
  (length (take 50 month_data) ≤ 50)%nat ∧
  take 50 month_data `prefix_of` month_data ∧
  month_data `sublist_of` df ∧
  (length (take 20 (find_recurring_events sort_values df target_month))
     ≤ 20)%nat ∧
  take 20 (find_recurring_events sort_values df target_month)
    `prefix_of` find_recurring_events sort_values df target_month.
Proof.
  repeat split.
  - rewrite length_take. lia.
  - apply prefix_take.
  - apply sublist_filter.
  - rewrite length_take. lia.
  - apply prefix_take.
Qed.

(** A date column entry is a [Timestamp], which [json.dumps] rejects:
    as soon as the month has an entry, the function leaves with
    [TypeError] before the gateway is called. *)
Lemma suggest_next_month_ads_raises :
  month_data ≠ [] →
  suggest_next_month_ads generate_content sort_values df target_month st
  = raised TypeError st.
Proof.
  unfold suggest_next_month_ads. intros Hne.
  destruct month_data as [|r rows]; [done|].
  reflexivity.
Qed.

(** With no entry in the month both payloads are empty and the prompt
    reaches the gateway. *)
Lemma suggest_next_month_ads_empty_month :
  month_data = [] →
  suggest_next_month_ads generate_content sort_values df target_month st
  = call_gemini_with_retry generate_content
      {| p_target_month := target_month;
         p_past_events := PyList [];
         p_recurring_events := PyDict [] |}
      {| temperature_tenths := 3; max_output_tokens := 2000 |} st.
Proof.
  unfold suggest_next_month_ads, find_recurring_events.
  by intros ->.
Qed.

End ComposerFacts.

(** C9 at a table with a single March entry: the entry is selected for
    the payload, [json.dumps] rejects its date, and the call ends in
    [TypeError]; no prompt is delegated and no request is sent. *)
Theorem suggest_next_month_ads_single_entry
    (generate_content :
       Z → string → string → prompt → generation_config → response)
    (sort_values : list event → list event) (st : session_state) :
  take 50 (filter (λ r, month_mask 3 r)
             [entry 2023 3 5 "행사" "봄맞이 대청소" ""])
    = [entry 2023 3 5 "행사" "봄맞이 대청소" ""] ∧
  outcome (suggest_next_month_ads generate_content sort_values
             [entry 2023 3 5 "행사" "봄맞이 대청소" ""] 3 st)
    = Raises TypeError ∧
  calls (suggest_next_month_ads generate_content sort_values
           [entry 2023 3 5 "행사" "봄맞이 대청소" ""] 3 st) = [].
Proof. repeat split. Qed.

(** * Further properties *)

(** ** AI gateway: notices, session state, rotation *)

Lemma expected_notices_snoc (a : Z) (fs : list call) (fin : call) :
  expected_notices a (fs ++ [fin])
  = mjoin (imap (λ j c, info_notice (a + Z.of_nat j) c ++
                        [st_warning (call_index c + 1)]) fs) ++
    info_notice (a + Z.of_nat (length fs)) fin.
Proof.
  revert a. induction fs as [|c fs IH]; intros a.
  - cbn. by rewrite Z.add_0_r, app_nil_r.
  - rewrite <- app_comm_cons. cbn [expected_notices].
    destruct (fs ++ [fin]) as [|c' cs] eqn:Hcs; [by destruct fs|].
    rewrite IH, imap_cons. cbn [mjoin list_join].
    rewrite Z.add_0_r, <- !app_assoc. f_equal. cbn [app]. f_equal.
    f_equal; [f_equal; apply imap_ext; intros j c'' _; cbn|cbn [length]].
    + by replace (a + 1 + Z.of_nat j) with (a + Z.of_nat (S j)) by lia.
    + by replace (a + 1 + Z.of_nat (length fs))
        with (a + Z.of_nat (S (length fs))) by lia.
Qed.

Section GatewayMore.

Context {Prompt Config : Type}.
Variable generate_content : Z → string → string → Prompt → Config → response.
Variable prompt : Prompt.
Variable generation_config : Config.

Lemma attempts_loop_notices (keys : list string)
    (model : string) (start_index : Z) (k : nat) (a : Z)
    (st : session_state) :
  keys ≠ [] → 0 ≤ a → Z.of_nat k = Z.of_nat (length keys) - a - 1 →
  notices (attempts_loop generate_content prompt generation_config st keys
             model start_index (seqZ a (Z.of_nat (length keys) - a)))
  = expected_notices a
      (calls (attempts_loop generate_content prompt generation_config st keys
                model start_index (seqZ a (Z.of_nat (length keys) - a)))).
Proof.
  intros Hkeys. revert a st.
  induction k as [|k IH]; intros a st Ha Hk.
  all: rewrite (seqZ_cons a (Z.of_nat (length keys) - a)) by lia;
       cbn [attempts_loop].
  all: destruct (py_getitem_mod keys (start_index + a) Hkeys)
         as (key & -> & Hkey).
  all: destruct (generate_content a key model prompt generation_config)
         as [text|e|e] eqn:Hanswer; unfold on_exception.
  all: try destruct (quota_or_limit e) eqn:Hq.
  all: try (destruct (Z.ltb_spec a (Z.of_nat (length keys) - 1)); [|lia]).
  all: try (destruct (Z.ltb_spec a (Z.of_nat (length keys) - 1)); [lia|]).
  all: try (cbn [calls notices expected_notices]; unfold info_notice;
            cbn [call_response call_index returned andb];
            by rewrite ?app_nil_r).
  all: replace (Z.pred (Z.of_nat (length keys) - a))
         with (Z.of_nat (length keys) - Z.succ a) by lia.
  all: cbn [logged calls notices]; rewrite IH by lia.
  all: match goal with
       | |- context [attempts_loop _ _ _ ?st' _ _ _ _] =>
           destruct (attempts_loop_spec generate_content prompt
                       generation_config keys model start_index k
                       (Z.succ a) st')
             as (fs & fin & Hcalls & _); [done|lia|lia|]
       end.
  all: rewrite Hcalls; replace (Z.succ a) with (a + 1) by lia.
  all: cbn [expected_notices]; unfold info_notice;
       cbn [call_response call_index returned andb].
  all: rewrite <- ?app_assoc.
  all: by destruct (fs ++ [fin]) as [|c' cs] eqn:Hcs; [destruct fs|].
Qed.

Variable st : session_state.

Local Abbreviation keys := (default [] (api_keys st)).
Local Abbreviation model := (default default_model (model_name st)).
Local Abbreviation start_index := (default 0 (current_api_key_index st)).
Local Abbreviation r :=
  (call_gemini_with_retry generate_content prompt generation_config st).

(** The last request of a run is the one of attempt [length failures]. *)
Lemma final_issued (failures : list call) (final : call) :
  Forall2 (issued_at generate_content prompt generation_config
             keys model start_index)
    (seqZ 0 (Z.of_nat (length failures) + 1)) (failures ++ [final]) →
  issued_at generate_content prompt generation_config keys model
    start_index (Z.of_nat (length failures)) final.
Proof.
  intros Hiss.
  assert ((failures ++ [final]) !! length failures = Some final) as Hlast
    by (by rewrite lookup_app_r, Nat.sub_diag by lia).
  destruct (Forall2_lookup_r _ _ _ _ _ Hiss Hlast) as (j & Hj & Hjc).
  apply lookup_seqZ in Hj as [-> _]. by rewrite Z.add_0_l in Hjc.
Qed.

(** X1.  Whatever the session state holds, [call_gemini_with_retry]
    returns a string: no [IndexError] (nor any other exception) leaves it,
    also when the stored cursor is negative or beyond the end of the
    credential list. *)
Theorem call_gemini_with_retry_never_raises :
  ∃ (exit : exit_point) (text : string), outcome r = Returns (exit, text).
Proof.
  destruct (decide (keys = [])) as [Hnil|Hkeys].
  { rewrite (call_gemini_with_retry_no_keys _ _ _ _ Hnil). cbn. eauto. }
  destruct (call_gemini_with_retry_spec generate_content prompt
              generation_config st Hkeys)
    as (fs & fin & _ & _ & _ & _ & Hfin).
  destruct (error_msg_of (call_response fin)) as [e|].
  2: { destruct Hfin as (text & _ & ->). eauto. }
  destruct (quota_or_limit e); [destruct Hfin as [_ ->]|rewrite Hfin]; eauto.
Qed.

(** X2.  A call never touches the stored credential list or model name.
    The session state it leaves is the one its requests left: the cursor
    stands at the position of the last request that came back with a
    response, whether or not the text of that response could then be
    read, and when no request came back with a response the whole session
    state, the cursor included, is as the call found it. *)
Theorem call_gemini_with_retry_preserves_session :
  api_keys
    (state (call_gemini_with_retry generate_content prompt
              generation_config st)) = api_keys st ∧
  model_name
    (state (call_gemini_with_retry generate_content prompt
              generation_config st)) = model_name st ∧
  state (call_gemini_with_retry generate_content prompt generation_config st)
    = cursor_after st
        (calls (call_gemini_with_retry generate_content prompt
                  generation_config st)) ∧
  (Forall (λ c, returned (call_response c) = false)
     (calls (call_gemini_with_retry generate_content prompt
               generation_config st)) →
   state (call_gemini_with_retry generate_content prompt
            generation_config st) = st).
Proof.
  rewrite call_gemini_with_retry_state.
  split; [apply cursor_after_fields|]. split; [apply cursor_after_fields|].
  split; [done|]. apply cursor_after_raised.
Qed.

(** X3.  When a call returns generated text, the cursor it stores is a
    valid position of the credential list, the text is what the service
    answered for the credential at that position, and that request was the
    last one sent. *)
Theorem success_stores_answering_credential (text : string) :
  outcome r = Returns (return_text, text) →
  ∃ (i : Z) (key : string) (c : call),
    current_api_key_index (state r) = Some i ∧
    0 ≤ i < Z.of_nat (length keys) ∧
    keys !! Z.to_nat i = Some key ∧
    last (calls r) = Some c ∧
    c = {| call_index := i; call_key := key;
           call_response := Generated text |} ∧
    generate_content (Z.of_nat (length (calls r)) - 1) key model prompt
      generation_config = Generated text.
Proof.
  intros Hout.
  destruct (decide (keys = [])) as [Hnil|Hkeys].
  { by rewrite (call_gemini_with_retry_no_keys _ _ _ _ Hnil) in Hout. }
  destruct (call_gemini_with_retry_spec generate_content prompt
              generation_config st Hkeys)
    as (fs & fin & Hcalls & Hiss & _ & _ & Hfin).
  destruct (final_issued fs fin Hiss) as (Hidx & Hkey & Hresp).
  destruct (error_msg_of (call_response fin)) as [e|].
  { rewrite Hout in Hfin.
    destruct (quota_or_limit e); [by destruct Hfin|done]. }
  destruct Hfin as (text' & Hgen & Hout'). rewrite Hout in Hout'.
  injection Hout' as <-.
  assert (0 < Z.of_nat (length keys)) as Hn
    by (destruct keys; simpl in *; [done|lia]).
  pose proof (Z.mod_pos_bound (start_index + Z.of_nat (length fs)) _ Hn).
  exists (call_index fin), (call_key fin), fin.
  rewrite call_gemini_with_retry_state, Hcalls, cursor_after_snoc, Hgen,
    last_snoc.
  split; [done|]. split; [by rewrite Hidx|]. split; [done|].
  split; [done|]. split; [destruct fin; cbn in *; by subst|].
  rewrite length_app. cbn [length].
  replace (Z.of_nat (length fs + 1) - 1) with (Z.of_nat (length fs)) by lia.
  by rewrite <- Hresp.
Qed.

(** X4.  The notices of a call follow its requests.  Every request but
    the last shows one warning with the 1-based position of its
    credential; a request of a later attempt than the first that came
    back with a response shows, before anything else, one information
    notice with that position.  So a call that returns generated text on
    its first request shows nothing, and a call whose last response has
    no readable text shows the information notice although it ends with
    an error message. *)
Theorem notices_follow_requests (failures : list call) (final : call) :
  calls r = failures ++ [final] →
  notices r
  = mjoin (imap (λ j c, info_notice (Z.of_nat j) c ++
                        [st_warning (call_index c + 1)]) failures) ++
    info_notice (Z.of_nat (length failures)) final.
Proof.
  intros Hcalls.
  destruct (decide (keys = [])) as [Hnil|Hkeys].
  { rewrite (call_gemini_with_retry_no_keys _ _ _ _ Hnil) in Hcalls.
    by destruct failures. }
  assert (0 < length keys)%nat as Hlen
    by (destruct keys; simpl in *; [done|lia]).
  pose proof (attempts_loop_notices keys model start_index
                (length keys - 1) 0 st Hkeys) as Hnot.
  rewrite Z.sub_0_r in Hnot. unfold call_gemini_with_retry in Hcalls |- *.
  by rewrite Hnot, Hcalls, expected_notices_snoc by lia.
Qed.

(** X22.  The requests of a call on a non-empty credential list.  The
    request of attempt [j] goes to the credential at position
    [(start_index + j) mod n]; there is at least one request and there
    are at most [n]; every request but the last ended with a quota or
    limit message; and the last request decides the result: generated
    text, the raw-error message for a message without "quota" and
    "limit", or, for a quota or limit message, the all-exhausted message,
    in which case it was the [n]-th request, so that no credential is
    skipped while one is left to try. *)
Theorem requests_follow_rotation :
  keys ≠ [] →
  ∃ (failures : list call) (final : call),
    calls r = failures ++ [final] ∧
    (length failures < length keys)%nat ∧
    (∀ (j : nat) (c : call),
       calls r !! j = Some c →
       issued_at generate_content prompt generation_config keys model
         start_index (Z.of_nat j) c) ∧
    Forall (λ c, ∃ e, error_msg_of (call_response c) = Some e ∧
                      quota_or_limit e = true) failures ∧
    match error_msg_of (call_response final) with
    | None =>
        ∃ text, call_response final = Generated text ∧
                outcome r = Returns (return_text, text)
    | Some e =>
        if quota_or_limit e
        then S (length failures) = length keys ∧
             outcome r = Returns (return_exhausted, msg_exhausted)
        else outcome r = Returns (return_error, msg_error e)
    end.
Proof.
  intros Hkeys.
  destruct (call_gemini_with_retry_spec generate_content prompt
              generation_config st Hkeys)
    as (fs & fin & Hcalls & Hiss & Hfail & Hlt & Hfin).
  exists fs, fin. split; [done|]. split; [done|].
  split; [|by split].
  intros j c Hc. rewrite Hcalls in Hc.
  destruct (Forall2_lookup_r _ _ _ _ _ Hiss Hc) as (a & Ha & Hac).
  apply lookup_seqZ in Ha as [-> _]. by rewrite Z.add_0_l in Hac.
Qed.

End GatewayMore.

(** The requests of a run, read as positions. *)
Lemma issued_indices {Prompt Config : Type}
    (generate_content : Z → string → string → Prompt → Config → response)
    (prompt : Prompt) (generation_config : Config)
    (keys : list string) (model : string) (start_index : Z)
    (attempts : list Z) (cs : list call) :
  Forall2 (issued_at generate_content prompt generation_config keys model
             start_index) attempts cs →
  call_index <$> cs
  = (λ j, (start_index + j) `mod` Z.of_nat (length keys)) <$> attempts.
Proof.
  induction 1 as [|j c attempts cs (Hidx & _) _ IH]; [done|].
  cbn. by rewrite Hidx, IH.
Qed.

(** Starting anywhere and stepping through [n] positions modulo [n] visits
    every position once. *)
Lemma rotation_Permutation (start n : Z) :
  0 < n → (λ j, (start + j) `mod` n) <$> seqZ 0 n ≡ₚ seqZ 0 n.
Proof.
  intros Hn. apply NoDup_Permutation.
  - apply NoDup_fmap_2_strong; [|apply NoDup_seqZ].
    intros j1 j2 Hj1%elem_of_seqZ Hj2%elem_of_seqZ Heq.
    assert ((j1 - j2) `mod` n = 0) as Hmod.
    { replace (j1 - j2) with ((start + j1) - (start + j2)) by lia.
      rewrite Zminus_mod, Heq, Z.sub_diag. by apply Z.mod_0_l; lia. }
    apply Z.mod_divide in Hmod as [q Hq]; [|lia].
    assert (q = 0) as ->; [|lia].
    destruct (Z.lt_trichotomy q 0) as [?|[?|?]]; [nia|done|nia].
  - apply NoDup_seqZ.
  - intros x. rewrite list_elem_of_fmap, elem_of_seqZ. split.
    + intros (j & -> & _). pose proof (Z.mod_pos_bound (start + j) n Hn). lia.
    + intros Hx. exists ((x - start) `mod` n). split.
      * rewrite Zplus_mod_idemp_r.
        replace (start + (x - start)) with x by lia.
        by rewrite Z.mod_small by lia.
      * apply elem_of_seqZ.
        pose proof (Z.mod_pos_bound (x - start) n Hn). lia.
Qed.

Section GatewayRotation.

Context {Prompt Config : Type}.
Variable generate_content : Z → string → string → Prompt → Config → response.
Variable prompt : Prompt.
Variable generation_config : Config.
Variable st : session_state.

Local Abbreviation keys := (default [] (api_keys st)).
Local Abbreviation model := (default default_model (model_name st)).
Local Abbreviation start_index := (default 0 (current_api_key_index st)).
Local Abbreviation r :=
  (call_gemini_with_retry generate_content prompt generation_config st).

(** X5.  When every credential of a non-empty list fails on quota or
    limit, the call tries each credential exactly once, in rotation order
    from the stored cursor, then returns the all-exhausted message and
    leaves the session state as it was. *)
Theorem full_rotation_on_quota :
  keys ≠ [] →
  (∀ (attempt : Z) (key : string),
     key ∈ keys →
     ∃ e, generate_content attempt key model prompt generation_config
          = Failed e ∧ quota_or_limit e = true) →
  call_index <$> calls r
  = (λ j, (start_index + j) `mod` Z.of_nat (length keys))
      <$> seqZ 0 (Z.of_nat (length keys)) ∧
  call_index <$> calls r ≡ₚ seqZ 0 (Z.of_nat (length keys)) ∧
  outcome r = Returns (return_exhausted, msg_exhausted) ∧
  state r = st.
Proof.
  intros Hkeys Hquota.
  destruct (call_gemini_with_retry_spec generate_content prompt
              generation_config st Hkeys)
    as (fs & fin & Hcalls & Hiss & _ & _ & Hfin).
  assert (∀ (j : nat) (c : call),
            (fs ++ [fin]) !! j = Some c →
            ∃ e, call_response c = Failed e ∧ quota_or_limit e = true)
    as Hfailed.
  { intros j c Hc.
    destruct (Forall2_lookup_r _ _ _ _ _ Hiss Hc)
      as (a & _ & _ & Hkey & ->).
    apply Hquota. by eapply list_elem_of_lookup_2. }
  destruct (Hfailed (length fs) fin) as (e & He & Hq);
    [by rewrite lookup_app_r, Nat.sub_diag by lia|].
  rewrite He in Hfin. cbn in Hfin. rewrite Hq in Hfin.
  destruct Hfin as (Hlen & Hout).
  assert (call_index <$> calls r
          = (λ j, (start_index + j) `mod` Z.of_nat (length keys))
              <$> seqZ 0 (Z.of_nat (length keys))) as Hidx.
  { rewrite Hcalls. erewrite issued_indices by exact Hiss.
    do 2 f_equal. lia. }
  split; [done|]. split; [|split; [done|]].
  - rewrite Hidx. apply rotation_Permutation.
    destruct keys; simpl in *; [done|lia].
  - rewrite call_gemini_with_retry_state, Hcalls.
    apply cursor_after_raised, Forall_lookup. intros j c Hc.
    destruct (Hfailed j c Hc) as (e' & -> & _). done.
Qed.

End GatewayRotation.

(** *** Classification of error messages *)

Lemma prefix_app (needle hay : string) :
  String.prefix needle hay = true ↔ ∃ rest, hay = needle +:+ rest.
Proof.
  revert hay. induction needle as [|a needle IH]; intros hay.
  - split; [intros _; by exists hay|]. by destruct hay.
  - destruct hay as [|b hay]; cbn.
    { split; [done|]. by intros (? & ?). }
    destruct (ascii_dec a b) as [->|Hne].
    + rewrite IH. split.
      * intros (rest & ->). by exists rest.
      * intros (rest & [= ->]). by exists rest.
    + split; [done|]. intros (rest & [= ? _]). done.
Qed.

Lemma contains_app (needle hay : string) :
  contains needle hay = true ↔
  ∃ before after, hay = before +:+ needle +:+ after.
Proof.
  induction hay as [|b hay IH]; cbn [contains].
  - rewrite orb_false_r, prefix_app. split.
    + intros (rest & ->). by exists "", rest.
    + intros ([|? ?] & after & Heq); [by exists after|done].
  - rewrite orb_true_iff, prefix_app, IH. split.
    + intros [(rest & ->)|(before & after & ->)].
      * by exists "", rest.
      * by exists (String b before), after.
    + intros ([|b' before] & after & Heq).
      * left. by exists after.
      * right. injection Heq as _ ->. by exists before, after.
Qed.

(** X7.  An error message counts as a quota error exactly when its
    lower-cased text has "quota" or "limit" as a contiguous substring. *)
Theorem quota_or_limit_substring (error_msg : string) :
  quota_or_limit error_msg = true ↔
  ∃ before after,
    lower error_msg = before +:+ "quota" +:+ after ∨
    lower error_msg = before +:+ "limit" +:+ after.
Proof.
  unfold quota_or_limit. rewrite orb_true_iff, !contains_app.
  naive_solver.
Qed.

Lemma call_gemini_with_retry_preserves_session_witness :
  Forall (λ c, returned (call_response c) = false)
    (calls (call_gemini_with_retry all_over_quota no_prompt no_prompt
              (session ["A"; "B"] 1))) ∧
  state (call_gemini_with_retry all_over_quota no_prompt no_prompt
           (session ["A"; "B"] 1)) = session ["A"; "B"] 1 ∧
  state (call_gemini_with_retry answers_without_text no_prompt no_prompt
           (session ["A"; "B"] 0))
    = cursor_after (session ["A"; "B"] 0)
        (calls (call_gemini_with_retry answers_without_text no_prompt
                  no_prompt (session ["A"; "B"] 0))).
Proof.
  assert (Forall (λ c, returned (call_response c) = false)
            (calls (call_gemini_with_retry all_over_quota no_prompt no_prompt
                      (session ["A"; "B"] 1))))
    as Hraised by (repeat constructor).
  split; [exact Hraised|]. split.
  - apply (call_gemini_with_retry_preserves_session all_over_quota no_prompt
             no_prompt (session ["A"; "B"] 1)).
    exact Hraised.
  - apply (call_gemini_with_retry_preserves_session answers_without_text
             no_prompt no_prompt (session ["A"; "B"] 0)).
Defined.

Lemma success_stores_answering_credential_witness :
  outcome (call_gemini_with_retry only_B_works no_prompt no_prompt
             (session ["A"; "B"; "C"] 2)) = Returns (return_text, "ok") ∧
  ∃ (i : Z) (key : string) (c : call),
    current_api_key_index
      (state (call_gemini_with_retry only_B_works no_prompt no_prompt
                (session ["A"; "B"; "C"] 2))) = Some i ∧
    0 ≤ i < Z.of_nat (length (default []
                                (api_keys (session ["A"; "B"; "C"] 2)))) ∧
    default [] (api_keys (session ["A"; "B"; "C"] 2)) !! Z.to_nat i
      = Some key ∧
    last (calls (call_gemini_with_retry only_B_works no_prompt no_prompt
                   (session ["A"; "B"; "C"] 2))) = Some c ∧
    c = {| call_index := i; call_key := key;
           call_response := Generated "ok" |} ∧
    only_B_works
      (Z.of_nat (length (calls (call_gemini_with_retry only_B_works
                                  no_prompt no_prompt
                                  (session ["A"; "B"; "C"] 2)))) - 1)
      key (default default_model (model_name (session ["A"; "B"; "C"] 2)))
      no_prompt no_prompt = Generated "ok".
Proof.
  split; [reflexivity|].
  apply (success_stores_answering_credential only_B_works no_prompt no_prompt
           (session ["A"; "B"; "C"] 2) "ok").
  reflexivity.
Defined.

Lemma notices_follow_requests_witness :
  calls (call_gemini_with_retry answers_without_text no_prompt no_prompt
           (session ["A"; "B"] 0))
  = [ {| call_index := 0; call_key := "A";
         call_response := Failed "429 You exceeded your current quota" |} ]
    ++ [ {| call_index := 1; call_key := "B";
            call_response :=
              Unreadable
                "Invalid operation: the response has no valid Part" |} ] ∧
  notices (call_gemini_with_retry answers_without_text no_prompt no_prompt
             (session ["A"; "B"] 0))
  = [st_warning 1; st_info 2].
Proof.
  split; [reflexivity|].
  apply (notices_follow_requests answers_without_text no_prompt no_prompt
           (session ["A"; "B"] 0)
           [ {| call_index := 0; call_key := "A";
                call_response :=
                  Failed "429 You exceeded your current quota" |} ]
           {| call_index := 1; call_key := "B";
              call_response :=
                Unreadable
                  "Invalid operation: the response has no valid Part" |}).
  reflexivity.
Defined.

Lemma requests_follow_rotation_witness :
  default [] (api_keys (session ["A"; "B"; "C"] 2)) ≠ [] ∧
  ∃ (failures : list call) (final : call),
    calls (call_gemini_with_retry only_B_works no_prompt no_prompt
             (session ["A"; "B"; "C"] 2)) = failures ++ [final] ∧
    (length failures
     < length (default [] (api_keys (session ["A"; "B"; "C"] 2))))%nat ∧
    (∀ (j : nat) (c : call),
       calls (call_gemini_with_retry only_B_works no_prompt no_prompt
                (session ["A"; "B"; "C"] 2)) !! j = Some c →
       issued_at only_B_works no_prompt no_prompt
         (default [] (api_keys (session ["A"; "B"; "C"] 2)))
         (default default_model (model_name (session ["A"; "B"; "C"] 2)))
         (default 0 (current_api_key_index (session ["A"; "B"; "C"] 2)))
         (Z.of_nat j) c) ∧
    Forall (λ c, ∃ e, error_msg_of (call_response c) = Some e ∧
                      quota_or_limit e = true) failures ∧
    match error_msg_of (call_response final) with
    | None =>
        ∃ text,
          call_response final = Generated text ∧
          outcome (call_gemini_with_retry only_B_works no_prompt no_prompt
                     (session ["A"; "B"; "C"] 2))
            = Returns (return_text, text)
    | Some e =>
        if quota_or_limit e
        then S (length failures)
             = length (default [] (api_keys (session ["A"; "B"; "C"] 2))) ∧
             outcome (call_gemini_with_retry only_B_works no_prompt no_prompt
                        (session ["A"; "B"; "C"] 2))
               = Returns (return_exhausted, msg_exhausted)
        else outcome (call_gemini_with_retry only_B_works no_prompt no_prompt
                        (session ["A"; "B"; "C"] 2))
               = Returns (return_error, msg_error e)
    end.
Proof.
  split; [discriminate|].
  apply (requests_follow_rotation only_B_works no_prompt no_prompt
           (session ["A"; "B"; "C"] 2)).
  discriminate.
Defined.

Lemma full_rotation_on_quota_witness :
  default [] (api_keys (session ["A"; "B"; "C"] 1)) ≠ [] ∧
  call_index <$>
    calls (call_gemini_with_retry all_over_quota no_prompt no_prompt
             (session ["A"; "B"; "C"] 1))
  = (λ j, (default 0 (current_api_key_index (session ["A"; "B"; "C"] 1)) + j)
            `mod` Z.of_nat (length (default []
                                      (api_keys (session ["A"; "B"; "C"] 1)))))
      <$> seqZ 0 (Z.of_nat (length (default []
                                      (api_keys (session ["A"; "B"; "C"] 1))))) ∧
  call_index <$>
    calls (call_gemini_with_retry all_over_quota no_prompt no_prompt
             (session ["A"; "B"; "C"] 1))
  ≡ₚ seqZ 0 (Z.of_nat (length (default []
                                 (api_keys (session ["A"; "B"; "C"] 1))))) ∧
  outcome (call_gemini_with_retry all_over_quota no_prompt no_prompt
             (session ["A"; "B"; "C"] 1))
  = Returns (return_exhausted, msg_exhausted) ∧
  state (call_gemini_with_retry all_over_quota no_prompt no_prompt
           (session ["A"; "B"; "C"] 1)) = session ["A"; "B"; "C"] 1.
Proof.
  split; [discriminate|].
  apply (full_rotation_on_quota all_over_quota no_prompt no_prompt
           (session ["A"; "B"; "C"] 1)); [discriminate|].
  intros attempt key _. eexists. split; reflexivity.
Defined.

Lemma quota_or_limit_substring_witness :
  quota_or_limit "Resource exhausted: rate LIMIT reached" = true ∧
  ∃ before after,
    lower "Resource exhausted: rate LIMIT reached"
      = before +:+ "quota" +:+ after ∨
    lower "Resource exhausted: rate LIMIT reached"
      = before +:+ "limit" +:+ after.
Proof.
  split; [reflexivity|].
  apply (quota_or_limit_substring "Resource exhausted: rate LIMIT reached").
  reflexivity.
Defined.

(** ** Gateway initialisation *)

Section InitFacts.

Variable construct : string → string → bool.

Lemma keys_loop_first_usable (st : session_state) (keys : list string)
    (model : string) (i : Z) (before : list string) (k : string)
    (after : list string) :
  Forall (λ k', construct k' model = false) before →
  construct k model = true →
  keys_loop construct st keys model i (before ++ k :: after)
  = {| init_model := Some (k, model);
       init_state := {| api_keys := Some keys; model_name := Some model;
                        current_api_key_index :=
                          Some (i + Z.of_nat (length before)) |};
       init_notices := [];
       init_constructed := before ++ [k] |}.
Proof.
  intros Hbefore Hk. revert i.
  induction Hbefore as [|k' before Hk' _ IH]; intros i;
    cbn [app keys_loop length].
  - by rewrite Hk, Z.add_0_r.
  - rewrite Hk', IH.
    cbn [init_model init_state init_notices init_constructed].
    by replace (i + 1 + Z.of_nat (length before))
      with (i + Z.of_nat (S (length before))) by lia.
Qed.

Lemma keys_loop_none_usable (st : session_state) (keys : list string)
    (model : string) (i : Z) (rest : list string) :
  Forall (λ k, construct k model = false) rest →
  keys_loop construct st keys model i rest
  = {| init_model := None; init_state := st;
       init_notices := [st_error msg_all_keys_failed];
       init_constructed := rest |}.
Proof.
  intros Hrest. revert i.
  induction Hrest as [|k rest Hk _ IH]; intros i; cbn; [done|].
  by rewrite Hk, IH.
Qed.

(** A key list splits at its first usable key, or has none. *)
Lemma first_usable_split (model : string) (keys : list string) :
  Forall (λ k, construct k model = false) keys ∨
  ∃ before k after,
    keys = before ++ k :: after ∧
    Forall (λ k', construct k' model = false) before ∧
    construct k model = true.
Proof.
  induction keys as [|k keys IH]; [by left|].
  destruct (construct k model) eqn:Hk.
  - right. by exists [], k, keys.
  - destruct IH as [Hall|(before & k' & after & -> & Hbefore & Hk')].
    + left. by constructor.
    + right. exists (k :: before), k', after. by repeat constructor.
Qed.

Variable st : session_state.

Lemma init_gemini_unfold (sec : secrets) :
  init_gemini construct (secrets_loaded sec) st
  = match configured_keys sec with
    | [] =>
        {| init_model := None; init_state := st;
           init_notices := [st_error msg_no_api_key];
           init_constructed := [] |}
    | _ :: _ =>
        keys_loop construct st (configured_keys sec)
          (default default_model (gemini_model sec)) 0 (configured_keys sec)
    end.
Proof.
  unfold init_gemini, configured_keys.
  by destruct (default [] (gemini_api_keys sec)), (gemini_api_key sec).
Qed.

(** X8.  [init_gemini] selects the first configured key for which the
    client can be constructed: it tries the keys before it, in order, and
    none after it, shows no error, and stores in the session state the
    whole key list, the model name and the 0-based position of the
    selected key as the cursor. *)
Theorem init_gemini_selects_first_usable_key (sec : secrets)
    (before : list string) (k : string) (after : list string) :
  configured_keys sec = before ++ k :: after →
  Forall (λ k', construct k' (default default_model (gemini_model sec))
                = false) before →
  construct k (default default_model (gemini_model sec)) = true →
  init_gemini construct (secrets_loaded sec) st
  = {| init_model := Some (k, default default_model (gemini_model sec));
       init_state :=
         {| api_keys := Some (before ++ k :: after);
            model_name := Some (default default_model (gemini_model sec));
            current_api_key_index := Some (Z.of_nat (length before)) |};
       init_notices := [];
       init_constructed := before ++ [k] |}.
Proof.
  intros Hkeys Hbefore Hk. rewrite init_gemini_unfold, Hkeys.
  rewrite keys_loop_first_usable by done.
  by destruct before.
Qed.

(** X9.  When [init_gemini] returns no model it has left the session
    state exactly as it found it, and it has shown exactly one error and
    taken one of its three failing exits: the missing-key message if the
    secrets hold no key; the all-keys-failed message if every configured
    key was tried and none could be used; the initialisation-error
    message, with the text of the exception, if reading the secrets
    raised, in which case no key was tried. *)
Theorem init_gemini_failure_keeps_session (source : secrets_source) :
  init_model (init_gemini construct source st) = None →
  init_state (init_gemini construct source st) = st ∧
  ((∃ sec,
      source = secrets_loaded sec ∧
      configured_keys sec = [] ∧
      init_notices (init_gemini construct source st)
        = [st_error msg_no_api_key] ∧
      init_constructed (init_gemini construct source st) = []) ∨
   (∃ sec,
      source = secrets_loaded sec ∧
      configured_keys sec ≠ [] ∧
      init_notices (init_gemini construct source st)
        = [st_error msg_all_keys_failed] ∧
      init_constructed (init_gemini construct source st)
        = configured_keys sec) ∨
   (∃ error_msg,
      source = secrets_unreadable error_msg ∧
      init_notices (init_gemini construct source st)
        = [st_error (msg_init_error error_msg)] ∧
      init_constructed (init_gemini construct source st) = [])).
Proof.
  destruct source as [sec|error_msg].
  2: { intros _. split; [done|]. right. right. by exists error_msg. }
  rewrite init_gemini_unfold.
  destruct (configured_keys sec) as [|k0 keys] eqn:Hkeys.
  { intros _. split; [done|]. left. exists sec. by rewrite Hkeys. }
  destruct (first_usable_split (default default_model (gemini_model sec))
              (k0 :: keys))
    as [Hall|(before & k & after & Hsplit & Hbefore & Hk)].
  - rewrite keys_loop_none_usable by done. intros _. split; [done|].
    right. left. exists sec. by rewrite Hkeys.
  - rewrite Hsplit, keys_loop_first_usable by done. done.
Qed.

Context {Prompt Config : Type}.
Variable generate_content : Z → string → string → Prompt → Config → response.
Variable prompt : Prompt.
Variable generation_config : Config.

(** The first request of a call on the state a successful initialisation
    stored goes to the selected key. *)
Lemma first_request_after_init (keys_before : list string) (k : string)
    (keys_after : list string) (model : string) :
  ∃ first : call,
    head (calls (call_gemini_with_retry generate_content prompt
                   generation_config
                   {| api_keys := Some (keys_before ++ k :: keys_after);
                      model_name := Some model;
                      current_api_key_index :=
                        Some (Z.of_nat (length keys_before)) |}))
      = Some first ∧
    call_index first = Z.of_nat (length keys_before) ∧
    call_key first = k ∧
    call_response first
      = generate_content 0 k model prompt generation_config.
Proof.
  set (st' := {| api_keys := Some (keys_before ++ k :: keys_after);
                 model_name := Some model;
                 current_api_key_index :=
                   Some (Z.of_nat (length keys_before)) |}).
  assert (default [] (api_keys st') ≠ []) as Hne by by destruct keys_before.
  destruct (call_gemini_with_retry_spec generate_content prompt
              generation_config st' Hne)
    as (fs & fin & Hcalls & Hiss & _).
  rewrite Hcalls.
  destruct (fs ++ [fin]) as [|first cs] eqn:Hfirst; [by destruct fs|].
  rewrite seqZ_cons in Hiss by lia.
  apply Forall2_cons_1 in Hiss as [(Hidx & Hkey & Hresp) _].
  cbn in Hidx, Hkey, Hresp.
  rewrite Z.add_0_r, Z.mod_small in Hidx
    by (rewrite length_app; cbn; lia).
  rewrite Hidx, Nat2Z.id, list_lookup_middle in Hkey by done.
  injection Hkey as Hkey.
  exists first. split; [done|]. split; [done|]. split; [done|].
  by rewrite Hresp, <- Hkey.
Qed.

(** X10.  After an initialisation that returned a model, a generation
    call reads what the initialisation stored: its first request goes to
    the key the initialisation selected, with the model name it stored,
    and the call does not end at the fallback return after the loop. *)
Theorem init_then_generate (source : secrets_source) (k m : string) :
  init_model (init_gemini construct source st) = Some (k, m) →
  ∃ first : call,
    head (calls (call_gemini_with_retry generate_content prompt
                   generation_config
                   (init_state (init_gemini construct source st))))
      = Some first ∧
    call_key first = k ∧
    call_response first
      = generate_content 0 k m prompt generation_config ∧
    ∀ text,
      outcome (call_gemini_with_retry generate_content prompt
                 generation_config
                 (init_state (init_gemini construct source st)))
      ≠ Returns (return_fallback, text).
Proof.
  destruct source as [sec|error_msg]; [|done].
  rewrite init_gemini_unfold.
  destruct (configured_keys sec) as [|k0 keys] eqn:Hkeys; [done|].
  destruct (first_usable_split (default default_model (gemini_model sec))
              (k0 :: keys))
    as [Hall|(before & k' & after & Hsplit & Hbefore & Hk)].
  { by rewrite keys_loop_none_usable. }
  rewrite Hsplit, keys_loop_first_usable by done. cbn [init_model init_state].
  intros [= <- <-]. rewrite Z.add_0_l.
  destruct (first_request_after_init before k' after
              (default default_model (gemini_model sec)))
    as (first & Hhead & _ & Hkey & Hresp).
  exists first. split; [done|]. split; [done|]. split; [done|].
  intros text Hout.
  set (st' := {| api_keys := Some (before ++ k' :: after);
                 model_name :=
                   Some (default default_model (gemini_model sec));
                 current_api_key_index :=
                   Some (Z.of_nat (length before)) |}) in *.
  assert (default [] (api_keys st') ≠ []) as Hne by by destruct before.
  destruct (call_gemini_with_retry_spec generate_content prompt
              generation_config st' Hne)
    as (fs & fin & _ & _ & _ & _ & Hfin).
  rewrite Hout in Hfin.
  destruct (error_msg_of (call_response fin)) as [e|].
  - destruct (quota_or_limit e); [by destruct Hfin|done].
  - by destruct Hfin as (text' & _ & Hfin).
Qed.

End InitFacts.

Lemma init_gemini_selects_first_usable_key_witness :
  configured_keys (secrets_of ["A"; "B"; "C"]) = ["A"] ++ "B" :: ["C"] ∧
  Forall (λ k', all_but_A k'
                  (default default_model
                     (gemini_model (secrets_of ["A"; "B"; "C"]))) = false)
    ["A"] ∧
  all_but_A "B"
    (default default_model (gemini_model (secrets_of ["A"; "B"; "C"])))
    = true ∧
  init_gemini all_but_A (secrets_loaded (secrets_of ["A"; "B"; "C"]))
    fresh_session
  = {| init_model :=
         Some ("B", default default_model
                      (gemini_model (secrets_of ["A"; "B"; "C"])));
       init_state :=
         {| api_keys := Some (["A"] ++ "B" :: ["C"]);
            model_name :=
              Some (default default_model
                      (gemini_model (secrets_of ["A"; "B"; "C"])));
            current_api_key_index := Some (Z.of_nat (length ["A"])) |};
       init_notices := [];
       init_constructed := ["A"] ++ ["B"] |}.
Proof.
  assert (Forall (λ k', all_but_A k'
                   (default default_model
                      (gemini_model (secrets_of ["A"; "B"; "C"]))) = false)
            ["A"]) as Hbefore by (repeat constructor).
  split; [reflexivity|]. split; [exact Hbefore|]. split; [reflexivity|].
  apply (init_gemini_selects_first_usable_key all_but_A fresh_session
           (secrets_of ["A"; "B"; "C"]) ["A"] "B" ["C"]);
    [reflexivity|exact Hbefore|reflexivity].
Defined.

Lemma init_gemini_failure_keeps_session_witness :
  init_model (init_gemini (λ _ _, true)
                (secrets_unreadable "No secrets found.")
                (session ["X"] 0)) = None ∧
  init_state (init_gemini (λ _ _, true)
                (secrets_unreadable "No secrets found.")
                (session ["X"] 0)) = session ["X"] 0 ∧
  ((∃ sec,
      secrets_unreadable "No secrets found." = secrets_loaded sec ∧
      configured_keys sec = [] ∧
      init_notices (init_gemini (λ _ _, true)
                      (secrets_unreadable "No secrets found.")
                      (session ["X"] 0)) = [st_error msg_no_api_key] ∧
      init_constructed (init_gemini (λ _ _, true)
                          (secrets_unreadable "No secrets found.")
                          (session ["X"] 0)) = []) ∨
   (∃ sec,
      secrets_unreadable "No secrets found." = secrets_loaded sec ∧
      configured_keys sec ≠ [] ∧
      init_notices (init_gemini (λ _ _, true)
                      (secrets_unreadable "No secrets found.")
                      (session ["X"] 0)) = [st_error msg_all_keys_failed] ∧
      init_constructed (init_gemini (λ _ _, true)
                          (secrets_unreadable "No secrets found.")
                          (session ["X"] 0)) = configured_keys sec) ∨
   (∃ error_msg,
      secrets_unreadable "No secrets found."
        = secrets_unreadable error_msg ∧
      init_notices (init_gemini (λ _ _, true)
                      (secrets_unreadable "No secrets found.")
                      (session ["X"] 0))
        = [st_error (msg_init_error error_msg)] ∧
      init_constructed (init_gemini (λ _ _, true)
                          (secrets_unreadable "No secrets found.")
                          (session ["X"] 0)) = [])).
Proof.
  split; [reflexivity|].
  apply (init_gemini_failure_keeps_session (λ _ _, true) (session ["X"] 0)
           (secrets_unreadable "No secrets found.")).
  reflexivity.
Defined.

Lemma init_then_generate_witness :
  init_model (init_gemini all_but_A
                (secrets_loaded (secrets_of ["A"; "B"; "C"]))
                fresh_session) = Some ("B", default_model) ∧
  ∃ first : call,
    head (calls (call_gemini_with_retry only_B_works no_prompt no_prompt
                   (init_state (init_gemini all_but_A
                                  (secrets_loaded
                                     (secrets_of ["A"; "B"; "C"]))
                                  fresh_session))))
      = Some first ∧
    call_key first = "B" ∧
    call_response first
      = only_B_works 0 "B" default_model no_prompt no_prompt ∧
    ∀ text,
      outcome (call_gemini_with_retry only_B_works no_prompt no_prompt
                 (init_state (init_gemini all_but_A
                                (secrets_loaded
                                   (secrets_of ["A"; "B"; "C"]))
                                fresh_session)))
      ≠ Returns (return_fallback, text).
Proof.
  split; [reflexivity|].
  apply (init_then_generate all_but_A fresh_session only_B_works no_prompt
           no_prompt (secrets_loaded (secrets_of ["A"; "B"; "C"]))
           "B" default_model).
  reflexivity.
Defined.

(** ** Historical week matcher: when it returns and what it holds *)

Section HistoryMore.

Variable df : list row.
Variable current_date : date.

Lemma dt_year_min_Returns (first_year : Z) :
  dt_year_min df = Returns first_year →
  ∃ y ys, mapM (λ r, year <$> r_date r) df = Some (y :: ys) ∧
          first_year = foldr Z.min y ys.
Proof.
  unfold dt_year_min. destruct df as [|r l]; [done|].
  destruct (mapM _ (r :: l)) as [[|y ys]|]; [done| |done].
  intros [= <-]. eauto.
Qed.

(** A missing date in a table with rows ends the function with
    [TypeError]. *)
Lemma get_this_week_history_missing_date :
  df ≠ [] → Exists (λ r, r_date r = None) df →
  get_this_week_history df current_date = Raises TypeError.
Proof.
  intros Hne Hmissing. unfold get_this_week_history, dt_year_min.
  assert (mapM (λ r, year <$> r_date r) df = None) as ->;
    [|by destruct df].
  clear Hne. induction Hmissing as [r l Hr|r l _ IH]; cbn.
  - by rewrite Hr.
  - rewrite IH. by destruct (year <$> r_date r).
Qed.

Lemma foldr_min_le (y : Z) (ys : list Z) :
  foldr Z.min y ys ≤ y ∧ Forall (λ x, foldr Z.min y ys ≤ x) ys.
Proof.
  induction ys as [|x ys [IH1 IH2]]; cbn; [by split|].
  split; [lia|]. constructor; [lia|].
  eapply Forall_impl; [exact IH2|]. intros; cbn in *; lia.
Qed.

Lemma foldr_min_elem (y : Z) (ys : list Z) :
  foldr Z.min y ys ∈ y :: ys.
Proof.
  induction ys as [|x ys IH]; cbn; [set_solver|].
  destruct (Z.min_spec x (foldr Z.min y ys)) as [[_ ->]|[_ ->]];
    set_solver.
Qed.

(** X11.  The first year of the loop is the smallest year in the date
    column: no row is dated earlier and some row is dated in it. *)
Theorem dt_year_min_is_least (first_year : Z) :
  dt_year_min df = Returns first_year →
  (∀ r d, r ∈ df → r_date r = Some d → first_year ≤ year d) ∧
  ∃ r d, r ∈ df ∧ r_date r = Some d ∧ year d = first_year.
Proof.
  intros (y & ys & Hyears & ->)%dt_year_min_Returns.
  apply mapM_Some in Hyears.
  destruct (foldr_min_le y ys) as [Hy Hys].
  split.
  - intros r d Hr Hd.
    apply list_elem_of_lookup in Hr as [i Hi].
    destruct (Forall2_lookup_l _ _ _ _ _ Hyears Hi) as (x & Hx & Hrx).
    rewrite Hd in Hrx. injection Hrx as <-.
    destruct i as [|i]; [by injection Hx as ->|].
    rewrite Forall_forall in Hys. apply Hys.
    by eapply list_elem_of_lookup_2.
  - pose proof (foldr_min_elem y ys) as Hin.
    apply list_elem_of_lookup in Hin as [i Hi].
    destruct (Forall2_lookup_r _ _ _ _ _ Hyears Hi) as (r & Hr & Hry).
    destruct (r_date r) as [d|] eqn:Hd; [|done].
    injection Hry as Hry.
    exists r, d. split; [by eapply list_elem_of_lookup_2|done].
Qed.

(** X12.  [get_this_week_history] returns a dictionary exactly on a
    table that has rows and in which every date is present; on a table
    with rows it leaves with [TypeError] as soon as one date is
    missing. *)
Theorem get_this_week_history_returns_iff :
  ((∃ history, get_this_week_history df current_date = Returns history) ↔
   df ≠ [] ∧ Forall (λ r, is_Some (r_date r)) df) ∧
  (df ≠ [] → Exists (λ r, r_date r = None) df →
   get_this_week_history df current_date = Raises TypeError).
Proof.
  split; [|apply get_this_week_history_missing_date].
  split; [|intros [Hne Hdates]; by apply get_this_week_history_returns].
  intros [history Hreturns].
  assert (df ≠ []) as Hne by (by intros Hnil; rewrite Hnil in Hreturns).
  split; [done|].
  destruct (decide (Forall (λ r, is_Some (r_date r)) df))
    as [|Hmissing]; [done|].
  apply not_Forall_Exists in Hmissing; [|apply _].
  rewrite get_this_week_history_missing_date in Hreturns; [done..|].
  eapply Exists_impl; [exact Hmissing|].
  intros r Hr. by apply eq_None_not_Some.
Qed.

(** X13.  The dictionary returned holds, for each year from the first
    year of the table up to the year before the reference date, exactly
    that year's selection in table order when it is not empty, and
    nothing else. *)
Theorem history_exact (first_year : Z) (history : gmap Z (list row))
    (y : Z) (rows : list row) :
  dt_year_min df = Returns first_year →
  get_this_week_history df current_date = Returns history →
  history !! y = Some rows ↔
  first_year ≤ y < year current_date ∧
  rows = filter (λ r, week_mask current_date y r) df ∧
  rows ≠ [].
Proof.
  unfold get_this_week_history. intros -> [= <-]. split.
  - intros [?|(Hy%elem_of_seqZ & -> & ?)]%years_loop_lookup; [done|].
    split; [lia|done].
  - intros (Hy & -> & Hne).
    apply years_loop_stores; [|done]. apply elem_of_seqZ. lia.
Qed.

(** X14.  Every row of the table dated in a year before the reference
    year, and in the ISO week of the reference date or in its month with a
    day at most 7 away, is listed under its year. *)
Theorem history_lists_every_match (history : gmap Z (list row))
    (r : row) (d : date) :
  get_this_week_history df current_date = Returns history →
  r ∈ df → r_date r = Some d →
  year d < year current_date →
  (isoweek d = isoweek current_date ∨
   (month d = month current_date ∧
    day current_date - 7 ≤ day d ≤ day current_date + 7)) →
  ∃ rows, history !! year d = Some rows ∧ r ∈ rows.
Proof.
  unfold get_this_week_history. intros Hget Hr Hd Hyear Hmatch.
  destruct (dt_year_min df) as [first_year|] eqn:Hmin; [|done].
  injection Hget as <-.
  apply dt_year_min_Returns in Hmin as (y0 & ys & Hyears & ->).
  apply mapM_Some in Hyears.
  assert (foldr Z.min y0 ys ≤ year d) as Hfirst.
  { destruct (foldr_min_le y0 ys) as [Hy Hys].
    apply list_elem_of_lookup in Hr as [i Hi].
    destruct (Forall2_lookup_l _ _ _ _ _ Hyears Hi) as (x & Hx & Hrx).
    rewrite Hd in Hrx. injection Hrx as <-.
    destruct i as [|i]; [by injection Hx as ->|].
    rewrite Forall_forall in Hys. apply Hys.
    by eapply list_elem_of_lookup_2. }
  assert (r ∈ filter (λ r', week_mask current_date (year d) r') df) as Hin.
  { apply list_elem_of_filter. split; [|done].
    apply week_mask_spec. by exists d. }
  exists (filter (λ r', week_mask current_date (year d) r') df).
  split; [|done].
  apply years_loop_stores.
  - apply elem_of_seqZ. lia.
  - intros Hnil. rewrite Hnil in Hin. by apply elem_of_nil in Hin.
Qed.

End HistoryMore.

Lemma dt_year_min_is_least_witness :
  dt_year_min sample_table = Returns 2024 ∧
  (∀ r d, r ∈ sample_table → r_date r = Some d → 2024 ≤ year d) ∧
  ∃ r d, r ∈ sample_table ∧ r_date r = Some d ∧ year d = 2024.
Proof.
  split; [reflexivity|].
  apply (dt_year_min_is_least sample_table 2024). reflexivity.
Defined.

Lemma get_this_week_history_returns_iff_witness :
  (sample_table ≠ [] ∧ Forall (λ r, is_Some (r_date r)) sample_table) ∧
  (∃ history, get_this_week_history sample_table today = Returns history) ∧
  table_with_blank_date ≠ [] ∧
  Exists (λ r, r_date r = None) table_with_blank_date ∧
  get_this_week_history table_with_blank_date today = Raises TypeError.
Proof.
  assert (sample_table ≠ [] ∧ Forall (λ r, is_Some (r_date r)) sample_table)
    as Hgood by (split; [discriminate|repeat constructor; by eexists]).
  assert (Exists (λ r, r_date r = None) table_with_blank_date) as Hblank
    by (right; left; reflexivity).
  destruct (get_this_week_history_returns_iff sample_table today)
    as [Hreturns _].
  destruct (get_this_week_history_returns_iff table_with_blank_date today)
    as [_ Hraises].
  split; [exact Hgood|]. split; [apply Hreturns; exact Hgood|].
  split; [discriminate|]. split; [exact Hblank|].
  apply Hraises; [discriminate|exact Hblank].
Defined.

Lemma history_exact_witness :
  dt_year_min sample_table = Returns 2024 ∧
  get_this_week_history sample_table today = Returns sample_history ∧
  (sample_history !! 2025
     = Some [entry 2025 11 10 "모임" "구역장 모임" ""] ↔
   2024 ≤ 2025 < year today ∧
   [entry 2025 11 10 "모임" "구역장 모임" ""]
     = filter (λ r, week_mask today 2025 r) sample_table ∧
   [entry 2025 11 10 "모임" "구역장 모임" ""] ≠ []).
Proof.
  split; [reflexivity|]. split; [vm_compute; reflexivity|].
  apply (history_exact sample_table today 2024 sample_history 2025
           [entry 2025 11 10 "모임" "구역장 모임" ""]).
  - reflexivity.
  - vm_compute; reflexivity.
Defined.

Lemma history_lists_every_match_witness :
  get_this_week_history sample_table today = Returns sample_history ∧
  entry 2024 11 6 "예배" "추수감사주일" "감사헌금" ∈ sample_table ∧
  2024 < year today ∧
  isoweek {| year := 2024; month := 11; day := 6 |} = isoweek today ∧
  ∃ rows,
    sample_history !! year {| year := 2024; month := 11; day := 6 |}
      = Some rows ∧
    entry 2024 11 6 "예배" "추수감사주일" "감사헌금" ∈ rows.
Proof.
  assert (entry 2024 11 6 "예배" "추수감사주일" "감사헌금" ∈ sample_table)
    as Hin by (apply elem_of_cons; by left).
  split; [vm_compute; reflexivity|]. split; [exact Hin|].
  split; [reflexivity|]. split; [reflexivity|].
  apply (history_lists_every_match sample_table today sample_history
           (entry 2024 11 6 "예배" "추수감사주일" "감사헌금")
           {| year := 2024; month := 11; day := 6 |}).
  - vm_compute; reflexivity.
  - exact Hin.
  - reflexivity.
  - reflexivity.
  - left. reflexivity.
Defined.

(** ** Recurring event detector: groups *)

Lemma groups_Permutation (keys : list string) (rows : list row) :
  NoDup keys →
  (∀ r, r ∈ rows → r_title r ∈ keys) →
  mjoin ((λ k, filter (λ r, r_title r = k) rows) <$> keys) ≡ₚ rows.
Proof.
  intros Hnodup. revert rows.
  induction Hnodup as [|k keys Hk _ IH]; intros rows Hcover.
  - destruct rows as [|r rows]; [done|].
    exfalso. eapply elem_of_nil, (Hcover r), elem_of_cons. by left.
  - cbn [fmap list_fmap mjoin list_join].
    etrans; [|apply (filter_app_complement (λ r, r_title r = k) rows)].
    apply Permutation_app; [done|].
    assert ((λ k', filter (λ r, r_title r = k') rows) <$> keys
            = (λ k', filter (λ r, r_title r = k')
                       (filter (λ r, ¬ r_title r = k) rows)) <$> keys)
      as ->; [|apply IH].
    + apply list_fmap_ext. intros i k' Hk'.
      rewrite list_filter_filter. apply list_filter_iff.
      intros r. split; [|naive_solver].
      intros ->. split; [done|]. intros ->.
      apply Hk. by eapply list_elem_of_lookup_2.
    + intros r [Hne Hr]%list_elem_of_filter.
      apply Hcover, elem_of_cons in Hr as [?|?]; done.
Qed.

Lemma groupby_title_groups (rows : list row) :
  (groupby_title rows).*2
  = (λ k, filter (λ r, r_title r = k) rows) <$> (groupby_title rows).*1.
Proof.
  unfold groupby_title. rewrite <- !list_fmap_compose.
  by apply list_fmap_ext.
Qed.

Lemma groupby_title_join (rows : list row) :
  mjoin (groupby_title rows).*2 ≡ₚ rows.
Proof.
  rewrite groupby_title_groups.
  apply groups_Permutation; [apply groupby_title_keys_sorted|].
  intros r Hr. apply list_elem_of_fmap.
  exists (r_title r, filter (λ r', r_title r' = r_title r) rows).
  split; [done|]. apply elem_of_groupby_title. by exists r.
Qed.

(** X15.  Grouping by title partitions the rows: every row lands in
    exactly one group (the groups together are a rearrangement of the
    rows), no group is empty, a group holds the rows of its title in table
    order, and the group keys are distinct and in ascending order. *)
Theorem groupby_title_partition (rows : list row) :
  mjoin (groupby_title rows).*2 ≡ₚ rows ∧
  Forall (λ g, g.2 ≠ [] ∧
               Forall (λ r, r_title r = g.1) g.2 ∧
               g.2 `sublist_of` rows) (groupby_title rows) ∧
  Sorted String.le (groupby_title rows).*1 ∧
  NoDup (groupby_title rows).*1.
Proof.
  split; [apply groupby_title_join|]. split; [|apply groupby_title_keys_sorted].
  apply Forall_forall. intros g (r & Hr & ->)%elem_of_groupby_title. cbn.
  split; [|split].
  - intros Hnil.
    assert (r ∈ filter (λ r', r_title r' = r_title r) rows) as Hin
      by by apply list_elem_of_filter.
    rewrite Hnil in Hin. by apply elem_of_nil in Hin.
  - apply Forall_forall. by intros r' [? _]%list_elem_of_filter.
  - apply sublist_filter.
Qed.

Lemma groups_count_bound (gs : list (string * list row)) :
  (3 * length (filter (λ e, (3 ≤ e_count e)%Z) (agg <$> gs))
   ≤ sum_list (length <$> gs.*2))%nat.
Proof.
  induction gs as [|g gs IH]; [done|].
  cbn [fmap list_fmap sum_list sum_list_with].
  change (id (length g.2)) with (length g.2). rewrite filter_cons.
  pose proof (length_filter (λ r, is_Some (r_date r)) g.2) as Hlen.
  destruct (decide (3 ≤ e_count (agg g))) as [Hge|_]; [|lia].
  cbn [length]. unfold agg in Hge. cbn [e_count] in Hge. lia.
Qed.

Section RecurringMore.

Variable sort_values : list event → list event.
Context {Hsort : SortValues sort_values}.
Variable df : list row.
Variable month : Z.

(** X16.  No title appears twice in the result of
    [find_recurring_events]. *)
Theorem recurring_titles_distinct :
  NoDup (e_title <$> find_recurring_events sort_values df month).
Proof.
  rewrite (find_recurring_events_perm df month sort_values).
  eapply sublist_NoDup; [|apply fmap_sublist, sublist_filter].
  rewrite <- list_fmap_compose.
  rewrite (list_fmap_ext _ fst (groupby_title _)) by done.
  apply groupby_title_keys_sorted.
Qed.

(** X17.  Each returned group stands for at least three distinct entries
    of the month, so the result has at most a third as many groups as the
    month has entries. *)
Theorem recurring_groups_bound :
  (3 * length (find_recurring_events sort_values df month)
   ≤ length (filter (λ r, month_mask month r) df))%nat.
Proof.
  rewrite (find_recurring_events_perm df month sort_values).
  etrans; [apply groups_count_bound|].
  by rewrite <- length_join, groupby_title_join.
Qed.

End RecurringMore.

Lemma recurring_titles_distinct_witness :
  SortValues merge_sort_values ∧
  NoDup (e_title <$> find_recurring_events merge_sort_values march_table 3).
Proof.
  split; [exact merge_sort_values_ok|].
  apply (@recurring_titles_distinct merge_sort_values merge_sort_values_ok
           march_table 3).
Defined.

Lemma recurring_groups_bound_witness :
  SortValues merge_sort_values ∧
  (3 * length (find_recurring_events merge_sort_values march_table 3)
   ≤ length (filter (λ r, month_mask 3 r) march_table))%nat.
Proof.
  split; [exact merge_sort_values_ok|].
  apply (@recurring_groups_bound merge_sort_values merge_sort_values_ok
           march_table 3).
Defined.

(** ** Suggestion composer and the page *)

(** X18.  [suggest_next_month_ads] reaches the gateway only for a month
    without entries, and then with two empty payloads, returning what the
    gateway returns; for every month with at least one entry it leaves
    with [TypeError] before any request, the session state untouched. *)
Theorem suggest_next_month_ads_cases
    (generate_content :
       Z → string → string → prompt → generation_config → response)
    (sort_values : list event → list event)
    (df : list row) (target_month : Z) (st : session_state) :
  suggest_next_month_ads generate_content sort_values df target_month st
  = match filter (λ r, month_mask target_month r) df with
    | [] =>
        call_gemini_with_retry generate_content
          {| p_target_month := target_month;
             p_past_events := PyList [];
             p_recurring_events := PyDict [] |}
          {| temperature_tenths := 3; max_output_tokens := 2000 |} st
    | _ :: _ => raised TypeError st
    end.
Proof.
  destruct (filter (λ r, month_mask target_month r) df) as [|r rows] eqn:Hm.
  - by apply suggest_next_month_ads_empty_month.
  - apply suggest_next_month_ads_raises. by rewrite Hm.
Qed.

(** X19.  For every month of the calendar the selector of the suggestion
    tab opens on the following month, on January after December: the
    position handed to the selector is within its twelve options, and the
    option at that position is the month after the current one. *)
Theorem next_month_follows (current_month : Z) :
  1 ≤ current_month ≤ 12 →
  next_month current_month
  = (if current_month =? 12 then 1 else current_month + 1) ∧
  0 ≤ next_month current_month - 1 < Z.of_nat (length month_options) ∧
  month_options !! Z.to_nat (next_month current_month - 1)
  = Some (next_month current_month).
Proof.
  intros Hm. unfold next_month.
  assert (current_month ∈ seqZ 1 12) as Hin by (apply elem_of_seqZ; lia).
  unfold seqZ in Hin. cbn in Hin.
  repeat (apply elem_of_cons in Hin as [->|Hin]); try (by repeat split);
    by apply elem_of_nil in Hin.
Qed.

Lemma next_month_follows_witness :
  1 ≤ 12 ≤ 12 ∧
  next_month 12 = (if 12 =? 12 then 1 else 12 + 1) ∧
  0 ≤ next_month 12 - 1 < Z.of_nat (length month_options) ∧
  month_options !! Z.to_nat (next_month 12 - 1) = Some (next_month 12).
Proof.
  split; [lia|]. apply (next_month_follows 12). lia.
Defined.

Lemma py_max_spec (keys : list Z) (m : Z) :
  py_max keys = Some m → m ∈ keys ∧ Forall (λ k, k ≤ m) keys.
Proof.
  destruct keys as [|y ys]; [done|]. intros [= <-].
  induction ys as [|x ys [IH1 IH2]]; cbn.
  - split; [apply elem_of_cons; by left|]. by repeat constructor.
  - apply Forall_cons in IH2 as [Hy Hys].
    destruct (Z.max_spec x (foldr Z.max y ys)) as [[Hlt ->]|[Hle ->]].
    + split.
      * apply elem_of_cons in IH1 as [->|?]; set_solver.
      * repeat constructor; [done|lia|done].
    + split; [set_solver|].
      constructor; [lia|]. constructor; [lia|].
      eapply Forall_impl; [exact Hys|]. intros; cbn in *; lia.
Qed.

Lemma sorted_reverse_strict (keys : list Z) :
  NoDup keys → StronglySorted (λ a b, b < a) (sorted_reverse keys).
Proof.
  intros Hnodup. unfold sorted_reverse.
  assert (NoDup (merge_sort descending keys)) as Hnd
    by by rewrite merge_sort_Permutation.
  assert (StronglySorted descending (merge_sort descending keys))
    as Hsorted.
  { apply StronglySorted_merge_sort.
    - intros a b c. unfold descending. lia.
    - intros a b. unfold descending. lia. }
  induction Hsorted as [|a l _ IH Ha]; [constructor|].
  apply NoDup_cons in Hnd as [Hnotin Hnd].
  constructor; [by apply IH|].
  apply Forall_forall. intros b Hb.
  rewrite Forall_forall in Ha. specialize (Ha b Hb).
  unfold descending in Ha.
  assert (a ≠ b) by (by intros ->). lia.
Qed.

(** X20.  The history tab shows the warning exactly when the history is
    empty.  Otherwise it shows one expander per year of the history, the
    newest year first and the years strictly descending, each with the
    rows stored for its year; the first expander, and no other, is
    expanded. *)
Theorem history_tab_newest_first (history : gmap Z (list row)) :
  (history = ∅ → history_tab history = no_history) ∧
  (history ≠ ∅ →
   ∃ xs, history_tab history = year_expanders xs ∧
     StronglySorted (λ a b, b < a) (x_year <$> xs) ∧
     (∀ y, y ∈ x_year <$> xs ↔ is_Some (history !! y)) ∧
     Forall (λ x, history !! x_year x = Some (x_rows x)) xs ∧
     x_expanded <$> xs = true :: replicate (length xs - 1) false).
Proof.
  split.
  { intros ->. unfold history_tab. by rewrite map_to_list_empty. }
  intros Hne. unfold history_tab.
  set (keys := (map_to_list history).*1).
  assert (NoDup keys) as Hnodup by apply NoDup_fst_map_to_list.
  assert (∀ y, y ∈ keys ↔ is_Some (history !! y)) as Hkeys.
  { intros y. unfold keys. rewrite list_elem_of_fmap. split.
    - intros ([y' rows] & -> & Hin%elem_of_map_to_list). by exists rows.
    - intros [rows Hrows]. exists (y, rows). split; [done|].
      by apply elem_of_map_to_list. }
  destruct keys as [|k0 ks] eqn:Hk.
  { apply fmap_nil_inv, map_to_list_empty_iff in Hk. done. }
  assert (k0 :: ks ≠ []) as Hnonempty by done.
  rewrite <- Hk in *. clear ks k0 Hk.
  pose proof (sorted_reverse_strict keys Hnodup) as Hstrict.
  assert (sorted_reverse keys ≡ₚ keys) as Hperm
    by apply merge_sort_Permutation.
  eexists. split; [reflexivity|].
  rewrite <- !list_fmap_compose.
  split; [|split; [|split]].
  - by rewrite (list_fmap_ext _ id (sorted_reverse keys)), list_fmap_id.
  - intros y.
    rewrite (list_fmap_ext _ id (sorted_reverse keys)), list_fmap_id by done.
    by rewrite Hperm.
  - apply Forall_fmap, Forall_forall. intros y Hy. cbn.
    rewrite Hperm in Hy. apply Hkeys in Hy as [rows Hrows].
    by rewrite (lookup_total_correct _ _ _ Hrows).
  - destruct (py_max keys) as [m|] eqn:Hmax.
    2: { by destruct keys. }
    apply py_max_spec in Hmax as [Hm Hle].
    rewrite <- Hperm in Hm, Hle.
    destruct (sorted_reverse keys) as [|y ys]; [by apply elem_of_nil in Hm|].
    apply StronglySorted_cons in Hstrict as [Hy _].
    apply Forall_cons in Hle as [Hym Hle].
    assert (m = y) as ->.
    { apply elem_of_cons in Hm as [?|Hm]; [done|].
      rewrite Forall_forall in Hy. specialize (Hy m Hm). lia. }
    cbn [fmap list_fmap length compose x_expanded].
    rewrite bool_decide_eq_true_2 by done. f_equal.
    rewrite Nat.sub_succ, Nat.sub_0_r, length_fmap.
    clear -Hy. induction Hy as [|z ys Hz _ IH]; [done|].
    cbn. rewrite bool_decide_eq_false_2 by (intros [= ->]; lia).
    f_equal. exact IH.
Qed.

Lemma history_tab_newest_first_witness :
  sample_history ≠ ∅ ∧
  ∃ xs, history_tab sample_history = year_expanders xs ∧
    StronglySorted (λ a b, b < a) (x_year <$> xs) ∧
    (∀ y, y ∈ x_year <$> xs ↔ is_Some (sample_history !! y)) ∧
    Forall (λ x, sample_history !! x_year x = Some (x_rows x)) xs ∧
    x_expanded <$> xs = true :: replicate (length xs - 1) false.
Proof.
  assert (sample_history ≠ ∅) as Hne.
  { intros Heq. assert (sample_history !! 2025 = None) as Hnone
      by by rewrite Heq.
    vm_compute in Hnone. discriminate Hnone. }
  destruct (history_tab_newest_first sample_history) as [_ Hshow].
  split; [exact Hne|exact (Hshow Hne)].
Defined.

(** The tab on the history of the sample table. *)
Example history_tab_sample :
  history_tab sample_history
  = year_expanders
      [ {| x_year := 2025; x_expanded := true;
           x_rows := [entry 2025 11 10 "모임" "구역장 모임" ""] |};
        {| x_year := 2024; x_expanded := false;
           x_rows := [entry 2024 11 6 "예배" "추수감사주일" "감사헌금"] |} ].
Proof. vm_compute. reflexivity. Qed.

(** X21.  A click on the suggestion button does not stop when the
    initialisation returns no model: the suggestion runs all the same, on
    the session state as it was before the click. *)
Theorem failed_init_does_not_stop_suggestion
    (construct : string → string → bool)
    (generate_content :
       Z → string → string → prompt → generation_config → response)
    (sort_values : list event → list event)
    (source : secrets_source) (df : list row) (selected_month : Z)
    (st : session_state) :
  init_model
    (click_init (suggestion_click construct generate_content sort_values
                   source df selected_month st)) = None →
  click_run (suggestion_click construct generate_content sort_values
               source df selected_month st)
  = suggest_next_month_ads generate_content sort_values df selected_month st
  ∧ ∃ msg,
      init_notices
        (click_init (suggestion_click construct generate_content sort_values
                       source df selected_month st)) = [st_error msg].
Proof.
  unfold suggestion_click. cbn [click_init click_run].
  destruct source as [sec|error_msg]; [|intros _; cbn; eauto].
  rewrite init_gemini_unfold.
  destruct (configured_keys sec) as [|k0 keys] eqn:Hkeys.
  { intros _. cbn. eauto. }
  destruct (first_usable_split construct
              (default default_model (gemini_model sec)) (k0 :: keys))
    as [Hall|(before & k & after & Hsplit & Hbefore & Hk)].
  - rewrite keys_loop_none_usable by done. intros _. cbn. eauto.
  - by rewrite Hsplit, keys_loop_first_usable.
Qed.

Lemma failed_init_does_not_stop_suggestion_witness :
  init_model
    (click_init (suggestion_click (λ _ _, true) always_answers
                   merge_sort_values (secrets_loaded (secrets_of []))
                   march_table 4 fresh_session)) = None ∧
  click_run (suggestion_click (λ _ _, true) always_answers
               merge_sort_values (secrets_loaded (secrets_of []))
               march_table 4 fresh_session)
  = suggest_next_month_ads always_answers merge_sort_values march_table 4
      fresh_session ∧
  ∃ msg,
    init_notices
      (click_init (suggestion_click (λ _ _, true) always_answers
                     merge_sort_values (secrets_loaded (secrets_of []))
                     march_table 4 fresh_session)) = [st_error msg].
Proof.
  split; [reflexivity|].
  apply (failed_init_does_not_stop_suggestion (λ _ _, true) always_answers
           merge_sort_values (secrets_loaded (secrets_of [])) march_table 4
           fresh_session).
  reflexivity.
Defined.

(** X6.  Every click on the suggestion button runs [init_gemini] before
    the call, and an initialisation that finds a usable key overwrites
    the key list, the model name and the cursor.  So what such a click
    does is the same whatever session state the previous click left, and
    for a month without entries its first request goes to the first key
    for which the client can be constructed, not to the key at the cursor
    the previous call stored. *)
Theorem click_restarts_at_first_usable_key
    (construct : string → string → bool)
    (generate_content :
       Z → string → string → prompt → generation_config → response)
    (sort_values : list event → list event)
    (sec : secrets) (df : list row) (selected_month : Z)
    (before : list string) (k : string) (after : list string)
    (st : session_state) :
  configured_keys sec = before ++ k :: after →
  Forall (λ k', construct k' (default default_model (gemini_model sec))
                = false) before →
  construct k (default default_model (gemini_model sec)) = true →
  (∀ st' : session_state,
     suggestion_click construct generate_content sort_values
       (secrets_loaded sec) df selected_month st'
     = suggestion_click construct generate_content sort_values
         (secrets_loaded sec) df selected_month st) ∧
  (filter (λ r, month_mask selected_month r) df = [] →
   ∃ first : call,
     head (calls (click_run
                    (suggestion_click construct generate_content sort_values
                       (secrets_loaded sec) df selected_month st)))
       = Some first ∧
     call_index first = Z.of_nat (length before) ∧
     call_key first = k).
Proof.
  intros Hkeys Hbefore Hk.
  assert (∀ st' : session_state,
            init_gemini construct (secrets_loaded sec) st'
            = {| init_model :=
                   Some (k, default default_model (gemini_model sec));
                 init_state :=
                   {| api_keys := Some (before ++ k :: after);
                      model_name :=
                        Some (default default_model (gemini_model sec));
                      current_api_key_index :=
                        Some (Z.of_nat (length before)) |};
                 init_notices := [];
                 init_constructed := before ++ [k] |}) as Hinit.
  { intros st'. rewrite init_gemini_unfold, Hkeys.
    rewrite keys_loop_first_usable by done. by destruct before. }
  unfold suggestion_click. split.
  - intros st'. by rewrite !Hinit.
  - intros Hmonth. rewrite Hinit. cbn [click_run init_state].
    rewrite suggest_next_month_ads_empty_month by done.
    destruct (first_request_after_init generate_content
                {| p_target_month := selected_month;
                   p_past_events := PyList [];
                   p_recurring_events := PyDict [] |}
                {| temperature_tenths := 3; max_output_tokens := 2000 |}
                before k after (default default_model (gemini_model sec)))
      as (first & Hhead & Hidx & Hkey & _).
    by exists first.
Qed.

Lemma click_restarts_at_first_usable_key_witness :
  configured_keys (secrets_of ["A"; "B"; "C"]) = ["A"] ++ "B" :: ["C"] ∧
  Forall (λ k', all_but_A k'
                  (default default_model
                     (gemini_model (secrets_of ["A"; "B"; "C"]))) = false)
    ["A"] ∧
  all_but_A "B"
    (default default_model (gemini_model (secrets_of ["A"; "B"; "C"])))
    = true ∧
  filter (λ r, month_mask 5 r) march_table = [] ∧
  (∀ st' : session_state,
     suggestion_click all_but_A always_answers merge_sort_values
       (secrets_loaded (secrets_of ["A"; "B"; "C"])) march_table 5 st'
     = suggestion_click all_but_A always_answers merge_sort_values
         (secrets_loaded (secrets_of ["A"; "B"; "C"])) march_table 5
         (session ["A"; "B"; "C"] 2)) ∧
  ∃ first : call,
    head (calls (click_run
                   (suggestion_click all_but_A always_answers
                      merge_sort_values
                      (secrets_loaded (secrets_of ["A"; "B"; "C"]))
                      march_table 5 (session ["A"; "B"; "C"] 2))))
      = Some first ∧
    call_index first = Z.of_nat (length ["A"]) ∧
    call_key first = "B".
Proof.
  assert (Forall (λ k', all_but_A k'
                   (default default_model
                      (gemini_model (secrets_of ["A"; "B"; "C"]))) = false)
            ["A"]) as Hbefore by (repeat constructor).
  destruct (click_restarts_at_first_usable_key all_but_A always_answers
              merge_sort_values (secrets_of ["A"; "B"; "C"]) march_table 5
              ["A"] "B" ["C"] (session ["A"; "B"; "C"] 2))
    as [Hsame Hfirst]; [reflexivity|exact Hbefore|reflexivity|].
  split; [reflexivity|]. split; [exact Hbefore|]. split; [reflexivity|].
  split; [reflexivity|]. split; [exact Hsame|]. apply Hfirst. reflexivity.
Defined.
